(** * GitTool: a libgit2 exerciser and the object engine it drives

    [src/GitTool.cpp] opens a repository, walks the first-parent chain of
    [master] and prints the diff of every commit against its first parent.
    The program itself is glue; the object store, the commit graph, the ref
    store and the tree diff live in the linked library, which is not part of
    the repository.  This development has two layers:

    - the _engine_: the content-addressed store, tree builder, commit graph,
      ref store and diff engine that the specification reconstructs;
    - the _program_: the functions of [GitTool.cpp], written over an
      interface [LibGit2] of the library calls they make, in a monad that
      threads the world, records what is printed and freed, propagates C++
      exceptions, and stops where the program reads through a null
      pointer. *)

From Stdlib Require Import ZArith NArith String Ascii List Lia OrdersEx.
From Stdlib.Strings Require Import Byte.
From stdpp Require Import base option list sorting relations gmap strings.

Local Open Scope list_scope.

(** ** 1. Data model *)

(** [git_oid]: the fixed-length digest, read as a number. *)
Definition git_oid := N.

Inductive EntryMode := ModeFile | ModeExecutable | ModeDirectory.

Record TreeEntry := mkEntry {
  entry_name : string;
  entry_mode : EntryMode;
  entry_target : git_oid
}.

Record git_signature := mkSignature {
  sig_name : string;
  sig_email : string;
  sig_when : Z
}.

Record Commit := mkCommit {
  treeId : git_oid;
  parentIds : list git_oid;
  author : git_signature;
  committer : git_signature;
  message : string
}.

Inductive TypeTag := TagBlob | TagTree | TagCommit.

(** A stored object: its type tag with its payload.  Tree and commit
    payloads are kept in parsed form; their bytes only feed the digest. *)
Inductive object :=
  | Blob (payload : list byte)
  | Tree (entries : list TreeEntry)
  | CommitObject (c : Commit).

Inductive ErrorKind :=
  | NotFoundError
  | CorruptObjectError
  | DuplicateEntryError
  | DanglingReferenceError
  | UnresolvedRefError
  | AlreadyExistsError
  | NotARepositoryError
  | MissingIdentityError
  | StorageError.

Inductive result (A : Type) :=
  | Ok (a : A)
  | Err (e : ErrorKind).
Arguments Ok {A} a.
Arguments Err {A} e.

Global Instance EntryMode_eq_dec : EqDecision EntryMode.
Proof. solve_decision. Defined.
Global Instance TreeEntry_eq_dec : EqDecision TreeEntry.
Proof. solve_decision. Defined.
Global Instance ErrorKind_eq_dec : EqDecision ErrorKind.
Proof. solve_decision. Defined.

(** ** 2. Canonical serialization and object ids *)

Definition byte_of_N (n : N) : byte :=
  default Byte.x00 (Byte.of_N (n mod 256)).

Fixpoint be_bytes (len : nat) (n : N) : list byte :=
  match len with
  | O => []
  | S k => be_bytes k (N.shiftr n 8) ++ [byte_of_N n]
  end.

Definition oid_bytes (id : git_oid) : list byte := be_bytes 20 id.

Definition string_bytes (s : string) : list byte :=
  be_bytes 4 (N.of_nat (String.length s)) ++ list_byte_of_string s.

Definition tag_byte (t : TypeTag) : byte :=
  match t with
  | TagBlob => Byte.x01
  | TagTree => Byte.x02
  | TagCommit => Byte.x03
  end.

Definition mode_byte (m : EntryMode) : byte :=
  match m with
  | ModeFile => Byte.x01
  | ModeExecutable => Byte.x02
  | ModeDirectory => Byte.x03
  end.

Definition entry_bytes (e : TreeEntry) : list byte :=
  mode_byte (entry_mode e) :: string_bytes (entry_name e) ++ oid_bytes (entry_target e).

Definition signature_bytes (s : git_signature) : list byte :=
  string_bytes (sig_name s) ++ string_bytes (sig_email s)
  ++ be_bytes 8 (Z.to_N (sig_when s mod 2 ^ 64)).

Definition commit_bytes (c : Commit) : list byte :=
  oid_bytes (treeId c)
  ++ be_bytes 4 (N.of_nat (length (parentIds c)))
  ++ concat (oid_bytes <$> parentIds c)
  ++ signature_bytes (author c) ++ signature_bytes (committer c)
  ++ string_bytes (message c).

Definition type_tag (o : object) : TypeTag :=
  match o with
  | Blob _ => TagBlob
  | Tree _ => TagTree
  | CommitObject _ => TagCommit
  end.

Definition serialize (o : object) : list byte :=
  match o with
  | Blob payload => payload
  | Tree entries => concat (entry_bytes <$> entries)
  | CommitObject c => commit_bytes c
  end.

(** The cryptographic digest is a parameter of the engine. *)
Class Digest := digest : list byte → git_oid.

(** Modelled from the spec: the ObjectId of an object, "id = digest(typeTag
    ‖ bytes)" of section 4.1; the library function that computes it is not
    in the repository. *)
Definition id_of_object `{Digest} (o : object) : git_oid :=
  digest (tag_byte (type_tag o) :: serialize o).

(** ** 3. ObjectStore *)

(** The persisted records in the order they were written, and the outcomes of
    the coming durable writes ([true]: the write fails with an I/O error). *)
Record ObjectStoreState := mkStore {
  objects : list (git_oid * object);
  faults : list bool
}.

Module ObjectStore.

Definition find (os : ObjectStoreState) (id : git_oid) : option object :=
  snd <$> List.find (λ p, bool_decide (p.1 = id)) (objects os).

Definition contains (os : ObjectStoreState) (id : git_oid) : bool :=
  bool_decide (is_Some (find os id)).

Definition copies (os : ObjectStoreState) (id : git_oid) : nat :=
  length (filter (λ p, p.1 = id) (objects os)).

(** Modelled from the spec: [ObjectStore.write] of section 4.1 (it is the
    library's object database, absent from the repository): compute the id;
    an object with that id already there, no-op; otherwise persist it,
    which fails only on a storage I/O error. *)
Definition write `{Digest} (os : ObjectStoreState) (o : object)
  : result git_oid * ObjectStoreState :=
  let id := id_of_object o in
  if contains os id then (Ok id, os)
  else
    match faults os with
    | true :: rest => (Err StorageError, mkStore (objects os) rest)
    | false :: rest => (Ok id, mkStore (objects os ++ [(id, o)]) rest)
    | [] => (Ok id, mkStore (objects os ++ [(id, o)]) [])
    end.

(** Modelled from the spec: [ObjectStore.read] of section 4.1. *)
Definition read (os : ObjectStoreState) (id : git_oid) : result object :=
  match find os id with
  | Some o => Ok o
  | None => Err NotFoundError
  end.

Definition empty : ObjectStoreState := mkStore [] [].

(** Every id is stored once. *)
Definition well_formed (os : ObjectStoreState) : Prop :=
  NoDup (objects os).*1.

End ObjectStore.

(** ** 4. TreeBuilder *)

Definition name_le (a b : string) : Prop := String_as_OT.compare a b ≠ Gt.

Global Instance name_le_dec : RelDecision name_le.
Proof. intros a b. unfold name_le. destruct (String_as_OT.compare a b); [left|left|right]; congruence. Defined.

Definition entry_le (e1 e2 : TreeEntry) : Prop :=
  name_le (entry_name e1) (entry_name e2).

Global Instance entry_le_dec : RelDecision entry_le.
Proof. intros a b. unfold entry_le. apply _. Defined.

Module TreeBuilder.

Definition sort_entries (entries : list TreeEntry) : list TreeEntry :=
  merge_sort entry_le entries.

(** Modelled from the spec: [TreeBuilder.build] of section 4.2 (the library's
    tree builder is absent from the repository): names must be unique, the
    entries are serialized in name-sorted order, the write is delegated to
    the object store. *)
Definition build `{Digest} (os : ObjectStoreState) (entries : list TreeEntry)
  : result git_oid * ObjectStoreState :=
  if bool_decide (NoDup (entry_name <$> entries))
  then ObjectStore.write os (Tree (sort_entries entries))
  else (Err DuplicateEntryError, os).

End TreeBuilder.

(** ** 5. CommitGraph *)

Module CommitGraph.

(** Modelled from the spec: [CommitGraph.create] of section 4.3 (the library's
    commit writer is absent from the repository): the tree id and every
    parent id must exist in the object store; then serialize and write. *)
Definition create `{Digest} (os : ObjectStoreState) (tree : git_oid)
    (parents : list git_oid) (a c : git_signature) (msg : string)
  : result git_oid * ObjectStoreState :=
  if ObjectStore.contains os tree && forallb (ObjectStore.contains os) parents
  then ObjectStore.write os (CommitObject (mkCommit tree parents a c msg))
  else (Err DanglingReferenceError, os).

(** Modelled from the spec: [CommitGraph.lookup] of section 4.3. *)
Definition lookup (os : ObjectStoreState) (id : git_oid) : result Commit :=
  match ObjectStore.read os id with
  | Ok (CommitObject c) => Ok c
  | Ok _ => Err CorruptObjectError
  | Err e => Err e
  end.

(** Modelled from the spec: [CommitGraph.firstParent] of section 4.3. *)
Definition firstParent (c : Commit) : option git_oid := head (parentIds c).

(** The first-parent link between stored commits. *)
Definition parent_link (os : ObjectStoreState) (child parent : git_oid) : Prop :=
  ∃ c, lookup os child = Ok c ∧ parent ∈ parentIds c.

Definition acyclic (os : ObjectStoreState) : Prop :=
  Irreflexive (tc (parent_link os)).

End CommitGraph.

(** ** 6. RefStore *)

Module RefStore.

(** Modelled from the spec: [RefStore.resolve] of section 4.4. *)
Definition resolve (refs : gmap string git_oid) (name : string) : result git_oid :=
  match refs !! name with
  | Some id => Ok id
  | None => Err UnresolvedRefError
  end.

(** Modelled from the spec: [RefStore.update] of section 4.4 (the library's
    reference database is absent from the repository): the id must exist in
    the object store; then the mapping is overwritten. *)
Definition update (os : ObjectStoreState) (refs : gmap string git_oid)
    (name : string) (id : git_oid) : result unit * gmap string git_oid :=
  if ObjectStore.contains os id
  then (Ok tt, <[name := id]> refs)
  else (Err DanglingReferenceError, refs).

End RefStore.

(** ** 7. DiffEngine *)

Inductive PathChange :=
  | Added (path : string) (mode : EntryMode) (target : git_oid)
  | Removed (path : string) (mode : EntryMode) (target : git_oid)
  | Modified (path : string) (old_mode : EntryMode) (old_target : git_oid)
             (new_mode : EntryMode) (new_target : git_oid)
  | ModeChanged (path : string) (target : git_oid) (old_mode new_mode : EntryMode).

Module DiffEngine.

Definition change_path (c : PathChange) : string :=
  match c with
  | Added p _ _ | Removed p _ _ | Modified p _ _ _ _ | ModeChanged p _ _ _ => p
  end.

(** The same change seen from the other side. *)
Definition mirror (c : PathChange) : PathChange :=
  match c with
  | Added p m t => Removed p m t
  | Removed p m t => Added p m t
  | Modified p m1 t1 m2 t2 => Modified p m2 t2 m1 t1
  | ModeChanged p t m1 m2 => ModeChanged p t m2 m1
  end.

Definition join_path (prefix name : string) : string :=
  if bool_decide (prefix = "") then name else (prefix ++ "/" ++ name)%string.

Definition lookup_entry (name : string) (es : list TreeEntry) : option TreeEntry :=
  List.find (λ e, bool_decide (entry_name e = name)) es.

(** The names of both sides, each once, in name order. *)
Definition entry_names (ea eb : list TreeEntry) : list string :=
  merge_sort name_le (remove_dups ((entry_name <$> ea) ++ (entry_name <$> eb))).

Definition is_tree (e : TreeEntry) : bool :=
  bool_decide (entry_mode e = ModeDirectory).

Definition read_tree (os : ObjectStoreState) (id : git_oid) : result (list TreeEntry) :=
  match ObjectStore.read os id with
  | Ok (Tree es) => Ok es
  | Ok _ => Err CorruptObjectError
  | Err e => Err e
  end.

(** A diff either ran out of recursion budget ([None]), failed, or produced
    changes. *)
Definition diff_result := option (result (list PathChange)).

Definition then_changes (r1 r2 : diff_result) : diff_result :=
  match r1, r2 with
  | None, _ => None
  | Some (Err e), _ => Some (Err e)
  | Some (Ok _), None => None
  | Some (Ok _), Some (Err e) => Some (Err e)
  | Some (Ok l1), Some (Ok l2) => Some (Ok (l1 ++ l2))
  end.

(** One name: present on one side only, or on both. *)
Definition diff_entry (recurse : string → git_oid → git_oid → diff_result)
    (path : string) (x y : option TreeEntry) : diff_result :=
  match x, y with
  | None, None => Some (Ok [])
  | Some ex, None => Some (Ok [Removed path (entry_mode ex) (entry_target ex)])
  | None, Some ey => Some (Ok [Added path (entry_mode ey) (entry_target ey)])
  | Some ex, Some ey =>
      if is_tree ex && is_tree ey then
        recurse path (entry_target ex) (entry_target ey)
      else if is_tree ex || is_tree ey then
        Some (Ok [Removed path (entry_mode ex) (entry_target ex);
                  Added path (entry_mode ey) (entry_target ey)])
      else if bool_decide (entry_target ex ≠ entry_target ey) then
        Some (Ok [Modified path (entry_mode ex) (entry_target ex)
                           (entry_mode ey) (entry_target ey)])
      else if bool_decide (entry_mode ex ≠ entry_mode ey) then
        Some (Ok [ModeChanged path (entry_target ex) (entry_mode ex) (entry_mode ey)])
      else Some (Ok [])
  end.

Definition diff_names (recurse : string → git_oid → git_oid → diff_result)
    (prefix : string) (ea eb : list TreeEntry) (names : list string) : diff_result :=
  foldr (λ n acc,
           then_changes
             (diff_entry recurse (join_path prefix n) (lookup_entry n ea) (lookup_entry n eb))
             acc)
        (Some (Ok [])) names.

(** Modelled from the spec: [DiffEngine.diffTrees] of section 4.5 (the
    library's tree diff is absent from the repository): compare the two trees
    entry by entry keyed by name, in name order; a name on one side only is
    Added or Removed; two trees recurse; two blobs with different ids are
    Modified; a tree against a blob is Removed then Added; equal content with
    different modes is reported apart.  [fuel] bounds the nesting depth. *)
Fixpoint diffTrees_at (fuel : nat) (os : ObjectStoreState) (prefix : string)
    (a b : git_oid) : diff_result :=
  match fuel with
  | O => None
  | S fuel' =>
      match read_tree os a with
      | Err e => Some (Err e)
      | Ok ea =>
          match read_tree os b with
          | Err e => Some (Err e)
          | Ok eb => diff_names (diffTrees_at fuel' os) prefix ea eb (entry_names ea eb)
          end
      end
  end.

Definition diffTrees (fuel : nat) (os : ObjectStoreState) (a b : git_oid) : diff_result :=
  diffTrees_at fuel os "" a b.


End DiffEngine.


(** ** 8. The library interface of [GitTool.cpp] *)

(** Handles returned by the library.  A bare repository has no working
    directory: [git_repository_workdir] is [NULL] for it. *)
Record git_repository := mkRepository { repo_workdir : option string }.
Record git_index := mkIndex { index_entries : list TreeEntry }.
Record git_tree := mkTree { tree_id : git_oid; tree_entries : list TreeEntry }.
Record git_commit := mkCommitHandle { commit_id : git_oid; commit_data : Commit }.
Record git_object := mkObject { obj_id : git_oid; obj_body : object }.
Record git_diff := mkDiff { diff_changes : list PathChange }.

(** What [giterr_last()] points to when an error has been recorded. *)
Record git_error := mkError { klass : Z; detail : string }.

(** The [int] a library call returns with its out-parameter: non-negative and
    the value, or a negative code and what [giterr_last()] returns after it:
    the error the call recorded, or [NULL] when it recorded none. *)
Inductive ret (T : Type) :=
  | Success (v : T)
  | Failure (code : positive) (e : option git_error).
Arguments Success {T} v.
Arguments Failure {T} code e.

Definition error_of {T} (r : ret T) : Z :=
  match r with
  | Success _ => 0
  | Failure code _ => Z.neg code
  end.

Definition giterr_last {T} (r : ret T) : option git_error :=
  match r with
  | Success _ => None
  | Failure _ e => e
  end.

Definition git_repository_workdir (repo : git_repository) : option string :=
  repo_workdir repo.
Definition git_object_id (obj : git_object) : git_oid := obj_id obj.
Definition git_commit_id (commit : git_commit) : git_oid := commit_id commit.
Definition git_commit_parentcount (commit : git_commit) : nat :=
  length (parentIds (commit_data commit)).
Definition git_commit_parent_id (commit : git_commit) (n : nat) : git_oid :=
  nth n (parentIds (commit_data commit)) 0%N.

(** The calls the program makes, over a world [W] that holds the file system
    and the library's state.  Calls that only read take the world; calls that
    write return the new one. *)
Class LibGit2 (W : Type) := {
  git_libgit2_init : W → ret unit * W;
  git_libgit2_shutdown : W → ret unit * W;
  current_path : W → option string;
  (** [boost::filesystem::path::operator/=] *)
  path_append : string → string → string;
  create_directories : string → W → option W;
  git_repository_init : string → W → ret git_repository * W;
  git_repository_open : string → W → ret git_repository * W;
  git_signature_default : git_repository → W → ret git_signature;
  git_repository_index : git_repository → W → ret git_index;
  git_index_write_tree : git_index → W → ret git_oid * W;
  git_tree_lookup : git_repository → git_oid → W → ret git_tree;
  git_commit_create :
    git_repository → string → git_signature → git_signature → string →
    git_tree → list git_commit → W → ret git_oid * W;
  git_revparse_single : git_repository → string → W → ret git_object;
  git_commit_lookup : git_repository → git_oid → W → ret git_commit;
  git_commit_tree : git_commit → W → ret git_tree;
  git_diff_tree_to_tree : git_repository → git_tree → git_tree → W → ret git_diff;
  (** the lines handed to the callback, and the status *)
  git_diff_print : git_diff → W → list string * ret unit
}.

(** ** 9. Effects of the program *)

(** [throw "Too bad."] and what [boost::filesystem] throws. *)
Inductive exn := TooBad | FilesystemError.

Inductive handle :=
  | HSignature (s : git_signature)
  | HIndex (i : git_index)
  | HTree (t : git_tree)
  | HCommit (c : git_commit)
  | HObject (o : git_object)
  | HDiff (d : git_diff)
  | HRepository (r : git_repository).

(** What the program does that can be observed: the lines it prints and the
    handles it frees. *)
Inductive event :=
  | LogError (message : string) (error : Z) (klass : Z) (detail : string)
  | LogInitialized (workdir : string)
  | LogOpened (workdir : string)
  | LogCreated
  | LogCommit (id : git_oid) (parentCount : nat)
  | LogLine (line : string)
  | LogDone
  | LogException (e : exn)
  | Free (h : handle).

(** How a run ends: it returns, it leaves by an exception, it is still going
    when the fuel is used up, or it reads through a null pointer, from where
    on the language defines no behaviour and the model follows it no
    further. *)
Inductive outcome (A : Type) :=
  | Normal (a : A)
  | Throw (e : exn)
  | OutOfFuel
  | Undefined.
Arguments Normal {A} a.
Arguments Throw {A} e.
Arguments OutOfFuel {A}.
Arguments Undefined {A}.

Definition M (W A : Type) : Type := W → outcome A * W * list event.

Global Instance M_ret {W} : MRet (M W) := λ A a w, (Normal a, w, []).

Global Instance M_bind {W} : MBind (M W) := λ A B f m w,
  match m w with
  | (Normal a, w1, t1) => let '(r, w2, t2) := f a w1 in (r, w2, t1 ++ t2)
  | (Throw e, w1, t1) => (Throw e, w1, t1)
  | (OutOfFuel, w1, t1) => (OutOfFuel, w1, t1)
  | (Undefined, w1, t1) => (Undefined, w1, t1)
  end.

Section Effects.
Context {W : Type}.

Definition out (e : event) : M W unit := λ w, (Normal tt, w, [e]).

Definition throw {A} (e : exn) : M W A := λ w, (Throw e, w, []).

Definition out_of_fuel {A} : M W A := λ w, (OutOfFuel, w, []).

Definition undefined {A} : M W A := λ w, (Undefined, w, []).

(** A library call that only reads. *)
Definition query {T} (f : W → T) : M W T := λ w, (Normal (f w), w, []).

(** A library call that writes. *)
Definition call {T} (f : W → T * W) : M W T :=
  λ w, let '(r, w') := f w in (Normal r, w', []).

(** A [boost::filesystem] call, which throws on failure. *)
Definition fs_query {T} (f : W → option T) : M W T :=
  λ w, match f w with
       | Some v => (Normal v, w, [])
       | None => (Throw FilesystemError, w, [])
       end.

Definition fs_call (f : W → option W) : M W unit :=
  λ w, match f w with
       | Some w' => (Normal tt, w', [])
       | None => (Throw FilesystemError, w, [])
       end.

(** [BOOST_SCOPE_EXIT_ALL]: [cleanup] runs when the rest of the scope, [body],
    is left, normally or by an exception.  It runs in a destructor: an
    exception that left it would end the program. *)
Definition scope_exit {A} (cleanup : M W unit) (body : M W A) : M W A :=
  λ w, match body w with
       | (OutOfFuel, w1, t1) => (OutOfFuel, w1, t1)
       | (Undefined, w1, t1) => (Undefined, w1, t1)
       | (r, w1, t1) =>
           match cleanup w1 with
           | (Normal _, w2, t2) => (r, w2, t1 ++ t2)
           | (OutOfFuel, w2, t2) => (OutOfFuel, w2, t1 ++ t2)
           | (_, w2, t2) => (Undefined, w2, t1 ++ t2)
           end
       end.

(** [try { body } catch (...) { handler }]. *)
Definition try_catch {A} (body : M W A) (handler : exn → M W A) : M W A :=
  λ w, match body w with
       | (Throw e, w1, t1) => let '(r, w2, t2) := handler e w1 in (r, w2, t1 ++ t2)
       | other => other
       end.

(** Runs [body] and hands back the exception it left by, if any. *)
Definition attempt {A} (body : M W A) : M W (A + exn) :=
  λ w, match body w with
       | (Normal a, w1, t1) => (Normal (inl a), w1, t1)
       | (Throw e, w1, t1) => (Normal (inr e), w1, t1)
       | (OutOfFuel, w1, t1) => (OutOfFuel, w1, t1)
       | (Undefined, w1, t1) => (Undefined, w1, t1)
       end.

End Effects.

(** ** 10. The functions of [GitTool.cpp] *)

Section Program.
Context {W : Type} `{LibGit2 W}.

(** [giterr_last()] is passed as [e]; the function reads [e->klass] and
    [e->message] without a check. *)
Definition logOnGitError (error : Z) (e : option git_error) (message : string) : M W unit :=
  if (error <? 0)%Z
  then match e with
       | Some e => out (LogError message error (klass e) (detail e))
       | None => undefined
       end
  else mret tt.

Definition throwOnGitError (error : Z) (e : option git_error) (message : string)
  : M W unit :=
  if (error <? 0)%Z
  then logOnGitError error e message ;; throw TooBad
  else mret tt.

(** [error = f(&out, ...); throwOnGitError(error, message);] and then the
    out-parameter, which the program reads only past the check. *)
Definition checked {T} (r : ret T) (message : string) : M W T :=
  throwOnGitError (error_of r) (giterr_last r) message ;;
  match r with
  | Success v => mret v
  | Failure _ _ => throw TooBad
  end.

(** [std::cout << s] for a [const char*]: a null [s] is not allowed. *)
Definition out_c_string (line : string → event) (s : option string) : M W unit :=
  match s with
  | Some s => out (line s)
  | None => undefined
  end.

Definition init_repo (repoPath : string) : M W git_repository :=
  r ← call (git_repository_init repoPath);
  repo ← checked r "Could not initialize repository.";
  out_c_string LogInitialized (git_repository_workdir repo) ;;
  mret repo.

Definition open_repo (repoPath : string) : M W git_repository :=
  r ← call (git_repository_open repoPath);
  repo ← checked r "Could not open repository.";
  out_c_string LogOpened (git_repository_workdir repo) ;;
  mret repo.

Definition create_initial_commit (repo : git_repository) : M W git_oid :=
  r ← query (git_signature_default repo);
  sig ← checked r "Unable to create a commit signature. Perhaps 'user.name' and 'user.email' are not set";
  scope_exit (out (Free (HSignature sig))) (
    r ← query (git_repository_index repo);
    index ← checked r "Could not open repository index.";
    scope_exit (out (Free (HIndex index))) (
      r ← call (git_index_write_tree index);
      tree_id ← checked r "Unable to write initial tree from index.";
      scope_exit (out (Free (HIndex index))) (
        r ← query (git_tree_lookup repo tree_id);
        tree ← checked r "Could not look up initial tree.";
        scope_exit (out (Free (HTree tree))) (
          r ← call (git_commit_create repo "HEAD" sig sig "Initial commit" tree []);
          commit_id ← checked r "Could not create the initial commit.";
          out LogCreated ;;
          mret commit_id)))).

(** [git_diff_print] with [print_cb], which prints the line and returns 0. *)
Definition print_lines (lines : list string) : M W unit :=
  foldr (λ line rest, out (LogLine line) ;; rest) (mret tt) lines.

Definition dumpDiff (repo : git_repository) (commit0 commit1 : git_commit) : M W unit :=
  r ← query (git_commit_tree commit0);
  commit0_tree ← checked r "Could not create commit0 tree.";
  scope_exit (out (Free (HTree commit0_tree))) (
    r ← query (git_commit_tree commit1);
    commit1_tree ← checked r "Could not create commit1 tree.";
    scope_exit (out (Free (HTree commit1_tree))) (
      r ← query (git_diff_tree_to_tree repo commit0_tree commit1_tree);
      diff ← checked r "Could not create diff.";
      scope_exit (out (Free (HDiff diff))) (
        p ← query (git_diff_print diff);
        print_lines p.1 ;;
        checked p.2 "Could not print diff."))).

(** The [while (commit)] loop of [findAllOnMaster].  It returns the value of
    the variable [commit] when the loop is left and the exception in flight,
    if any: the guard of line 172 frees that value.  The guard of line 191
    captures [parentCommit] by reference: past [std::swap] it frees the
    commit just printed, and the parent if [dumpDiff] threw. *)
Fixpoint history_loop (fuel : nat) (repo : git_repository) (commit : git_commit)
  : M W (git_commit * option exn) :=
  match fuel with
  | O => out_of_fuel
  | S fuel' =>
      let parentCount := git_commit_parentcount commit in
      out (LogCommit (git_commit_id commit) parentCount) ;;
      if bool_decide (parentCount = 0%nat) then mret (commit, None)
      else
        let firstParentId := git_commit_parent_id commit 0 in
        r ← query (git_commit_lookup repo firstParentId);
        looked ← attempt (checked r "Parent commit lookup failed.");
        match looked with
        | inr e => mret (commit, Some e)
        | inl parentCommit =>
            diffed ← attempt (dumpDiff repo parentCommit commit);
            match diffed with
            | inr e => out (Free (HCommit parentCommit)) ;; mret (commit, Some e)
            | inl _ => out (Free (HCommit commit)) ;; history_loop fuel' repo parentCommit
            end
        end
  end.

Definition findAllOnMaster (fuel : nat) (repo : git_repository) : M W unit :=
  r ← query (git_revparse_single repo "master");
  obj ← checked r "Revparse failed.";
  scope_exit (out (Free (HObject obj))) (
    r ← query (git_commit_lookup repo (git_object_id obj));
    commit ← checked r "Initial commit lookup failed.";
    left ← history_loop fuel repo commit;
    match left.2 with
    | None => out LogDone ;; out (Free (HCommit left.1))
    | Some e => out (Free (HCommit left.1)) ;; throw e
    end).

Definition main (fuel : nat) : M W Z :=
  try_catch (
    r ← call git_libgit2_init;
    checked r "Git initialization failed." ;;
    scope_exit (r ← call git_libgit2_shutdown;
                logOnGitError (error_of r) (giterr_last r) "Git shutdown failed.") (
      cwd ← fs_query current_path;
      let repoPath := path_append cwd "../GitToolPlayground" in
      fs_call (create_directories repoPath) ;;
      repo ← open_repo repoPath;
      scope_exit (out (Free (HRepository repo))) (
        findAllOnMaster fuel repo)))
    (λ e, out (LogException e)) ;;
  mret 0%Z.

End Program.

(** ** 11. Repository: the engine as one state *)

Inductive Lifecycle := Uninitialized | Initialized | Opened | Closed.

Record RepositoryState := mkRepo {
  lifecycle : Lifecycle;
  (** valid repository state exists at the root *)
  present : bool;
  store : ObjectStoreState;
  refs : gmap string git_oid;
  (** the ref of the current branch *)
  head : string;
  index : list TreeEntry;
  (** the configured author, if any *)
  identity : option (string * string);
  clock : Z
}.

Definition set_lifecycle (l : Lifecycle) (r : RepositoryState) : RepositoryState :=
  mkRepo l (present r) (store r) (refs r) (head r) (index r) (identity r) (clock r).

Definition set_store (os : ObjectStoreState) (r : RepositoryState) : RepositoryState :=
  mkRepo (lifecycle r) (present r) os (refs r) (head r) (index r) (identity r) (clock r).

Definition set_refs (m : gmap string git_oid) (r : RepositoryState) : RepositoryState :=
  mkRepo (lifecycle r) (present r) (store r) m (head r) (index r) (identity r) (clock r).

Definition result_map {A B} (f : A → B) (r : result A) : result B :=
  match r with
  | Ok a => Ok (f a)
  | Err e => Err e
  end.

Module Repository.

(** Modelled from the spec: [init] of section 4.6: fails when valid repository
    state is already present, otherwise creates empty stores. *)
Definition init (r : RepositoryState) : result unit * RepositoryState :=
  if present r then (Err AlreadyExistsError, r)
  else (Ok tt, mkRepo Initialized true (mkStore [] (faults (store r))) ∅
                      "refs/heads/master" [] (identity r) (clock r)).

(** Modelled from the spec: [open] of section 4.6. *)
Definition open (r : RepositoryState) : result unit * RepositoryState :=
  if present r then (Ok tt, set_lifecycle Opened r)
  else (Err NotARepositoryError, r).

Definition usable (r : RepositoryState) : bool :=
  match lifecycle r with
  | Initialized | Opened => true
  | _ => false
  end.

(** Modelled from the spec: the author identity of section 4.6, stamped with
    the current time; [MissingIdentityError] when none is configured. *)
Definition signature (r : RepositoryState) : result git_signature :=
  match identity r with
  | Some (name, email) => Ok (mkSignature name email (clock r))
  | None => Err MissingIdentityError
  end.

(** Modelled from the spec: a ref is "updated atomically on commit creation"
    (section 3): commit creation followed by the update of the named ref,
    which is not touched when either step fails. *)
Definition commit `{Digest} (r : RepositoryState) (refName : string) (tree : git_oid)
    (parents : list git_oid) (a c : git_signature) (msg : string)
  : result git_oid * RepositoryState :=
  match CommitGraph.create (store r) tree parents a c msg with
  | (Err e, os) => (Err e, set_store os r)
  | (Ok id, os) =>
      match RefStore.update os (refs r) refName id with
      | (Ok _, m) => (Ok id, set_refs m (set_store os r))
      | (Err e, _) => (Err e, set_store os r)
      end
  end.

(** Modelled from the spec: [createInitialCommit] of section 4.6: from
    [Initialized] or [Opened]; fails when the author identity cannot be
    determined; otherwise builds an empty tree and a zero-parent commit and
    updates the named ref. *)
Definition createInitialCommit `{Digest} (r : RepositoryState) (refName : string)
  : result git_oid * RepositoryState :=
  if usable r then
    match signature r with
    | Err e => (Err e, r)
    | Ok sig =>
        match TreeBuilder.build (store r) [] with
        | (Err e, os) => (Err e, set_store os r)
        | (Ok tree, os) => commit (set_store os r) refName tree [] sig sig "Initial commit"
        end
    end
  else (Err NotARepositoryError, r).

End Repository.

(** ** 12. The engine behind the library interface *)

(** The patch text of a change; the line-based alignment is left open. *)
Class PatchRenderer := renderPatch : ObjectStoreState → PathChange → list string.

Definition error_code (e : ErrorKind) : positive :=
  match e with
  | NotFoundError | UnresolvedRefError | NotARepositoryError | MissingIdentityError
  | DanglingReferenceError => 3
  | AlreadyExistsError | DuplicateEntryError => 4
  | CorruptObjectError | StorageError => 1
  end.

Definition error_klass (e : ErrorKind) : Z :=
  match e with
  | NotFoundError => 9
  | CorruptObjectError => 9
  | DuplicateEntryError => 14
  | DanglingReferenceError => 4
  | UnresolvedRefError => 4
  | AlreadyExistsError => 6
  | NotARepositoryError => 6
  | MissingIdentityError => 7
  | StorageError => 2
  end.

Definition to_ret {A} (r : result A) : ret A :=
  match r with
  | Ok a => Success a
  | Err e => Failure (error_code e) (Some (mkError (error_klass e) ""))
  end.

(** [operator/=] on POSIX paths: nothing is added for an empty right-hand
    side; otherwise a [/] goes in between unless the right-hand side starts
    with one or the left-hand side is empty or ends with one. *)
Fixpoint last_char (s : string) : option ascii :=
  match s with
  | EmptyString => None
  | String c EmptyString => Some c
  | String _ rest => last_char rest
  end.

Definition first_char (s : string) : option ascii :=
  match s with
  | EmptyString => None
  | String c _ => Some c
  end.

Definition is_separator (c : option ascii) : bool := bool_decide (c = Some "/"%char).

Definition posix_append (p q : string) : string :=
  if bool_decide (q = "") then p
  else if is_separator (first_char q) then p +:+ q
  else if bool_decide (p = "") || is_separator (last_char p) then p +:+ q
  else p +:+ "/" +:+ q.

(** Resolves [HEAD] to the ref of the current branch. *)
Definition direct_ref (r : RepositoryState) (name : string) : string :=
  if bool_decide (name = "HEAD") then head r else name.

Definition engine_revparse (r : RepositoryState) (name : string) : result git_object :=
  match RefStore.resolve (refs r) ("refs/heads/" +:+ name) with
  | Err e => Err e
  | Ok id => result_map (mkObject id) (ObjectStore.read (store r) id)
  end.

Definition engine_diff (r : RepositoryState) (a b : git_oid) : ret git_diff :=
  match DiffEngine.diffTrees (S (length (objects (store r)))) (store r) a b with
  | Some res => to_ret (result_map mkDiff res)
  | None => Failure 1 (Some (mkError 9 ""))
  end.

(** Modelled from the spec: the library calls of [GitTool.cpp], answered by
    the engine of sections 4.1 to 4.6; the library itself is not in the
    repository.  A new repository has [master] as its current branch, and
    [HEAD] names the ref of the current branch. *)
Global Instance engine_lib `{Digest, PatchRenderer} : LibGit2 RepositoryState := {
  git_libgit2_init w := (Success tt, w);
  git_libgit2_shutdown w := (Success tt, w);
  current_path w := Some ".";
  path_append := posix_append;
  create_directories p w := Some w;
  git_repository_init p w :=
    let '(r, w') := Repository.init w in
    (to_ret (result_map (λ _, mkRepository (Some p)) r), w');
  git_repository_open p w :=
    let '(r, w') := Repository.open w in
    (to_ret (result_map (λ _, mkRepository (Some p)) r), w');
  git_signature_default repo w := to_ret (Repository.signature w);
  git_repository_index repo w := Success (mkIndex (index w));
  git_index_write_tree idx w :=
    let '(r, os) := TreeBuilder.build (store w) (index_entries idx) in
    (to_ret r, set_store os w);
  git_tree_lookup repo id w :=
    to_ret (result_map (mkTree id) (DiffEngine.read_tree (store w) id));
  git_commit_create repo ref a c msg tree parents w :=
    let '(r, w') := Repository.commit w (direct_ref w ref) (tree_id tree)
                      (commit_id <$> parents) a c msg in
    (to_ret r, w');
  git_revparse_single repo name w := to_ret (engine_revparse w name);
  git_commit_lookup repo id w :=
    to_ret (result_map (mkCommitHandle id) (CommitGraph.lookup (store w) id));
  git_commit_tree c w :=
    to_ret (result_map (mkTree (treeId (commit_data c)))
              (DiffEngine.read_tree (store w) (treeId (commit_data c))));
  git_diff_tree_to_tree repo t0 t1 w := engine_diff w (tree_id t0) (tree_id t1);
  git_diff_print d w := (concat (renderPatch (store w) <$> diff_changes d), Success tt)
}.

(** A digest and a renderer to run the engine with. *)
Definition fnv_digest : Digest := λ bs,
  fold_left (λ h b, ((h * 16777619 + Byte.to_N b) mod 2 ^ 160)%N) bs 2166136261%N.

Definition names_only : PatchRenderer := λ _ c, [DiffEngine.change_path c].

(** The engine serving a bare repository: the same calls, but the
    repository handle has no working directory. *)
Definition bare_lib `{Digest, PatchRenderer} : LibGit2 RepositoryState := {|
  git_libgit2_init := @git_libgit2_init _ engine_lib;
  git_libgit2_shutdown := @git_libgit2_shutdown _ engine_lib;
  current_path := @current_path _ engine_lib;
  path_append := @path_append _ engine_lib;
  create_directories := @create_directories _ engine_lib;
  git_repository_init p w :=
    let '(r, w') := Repository.init w in
    (to_ret (result_map (λ _, mkRepository None) r), w');
  git_repository_open p w :=
    let '(r, w') := Repository.open w in
    (to_ret (result_map (λ _, mkRepository None) r), w');
  git_signature_default := @git_signature_default _ engine_lib;
  git_repository_index := @git_repository_index _ engine_lib;
  git_index_write_tree := @git_index_write_tree _ engine_lib;
  git_tree_lookup := @git_tree_lookup _ engine_lib;
  git_commit_create := @git_commit_create _ engine_lib;
  git_revparse_single := @git_revparse_single _ engine_lib;
  git_commit_lookup := @git_commit_lookup _ engine_lib;
  git_commit_tree := @git_commit_tree _ engine_lib;
  git_diff_tree_to_tree := @git_diff_tree_to_tree _ engine_lib;
  git_diff_print := @git_diff_print _ engine_lib
|}.

(** ** 13. Reachable store states *)

(** The states the object store can be in: it starts empty, blobs and trees
    are written, and commits enter it through [CommitGraph.create] only. *)
Inductive reachable `{Digest} : ObjectStoreState → Prop :=
  | reachable_empty fs : reachable (mkStore [] fs)
  | reachable_blob os payload :
      reachable os → reachable (ObjectStore.write os (Blob payload)).2
  | reachable_tree os entries :
      reachable os → reachable (TreeBuilder.build os entries).2
  | reachable_commit os tree parents a c msg :
      reachable os → reachable (CommitGraph.create os tree parents a c msg).2.

(** Parent links point to objects written earlier: every id is stored once,
    and the parents of the commit at position [i] are at positions below [i]. *)
Definition causal (os : ObjectStoreState) : Prop :=
  NoDup (objects os).*1 ∧
  ∀ i id c p, objects os !! i = Some (id, CommitObject c) → p ∈ parentIds c →
    ∃ j, j < i ∧ (objects os).*1 !! j = Some p.

(** ** 14. Histories *)

(** The commits a run has printed, in the order of their lines. *)
Definition visited (t : list event) : list git_oid :=
  omap (λ e, match e with LogCommit id _ => Some id | _ => None end) t.

(** The diff lines a run has printed. *)
Definition patch_lines (t : list event) : list string :=
  omap (λ e, match e with LogLine s => Some s | _ => None end) t.

(** A commit graph: the commits by id. *)
Definition parent_of (g : gmap git_oid Commit) (child parent : git_oid) : Prop :=
  ∃ c, g !! child = Some c ∧ parent ∈ parentIds c.

(** Parent links stay inside the graph. *)
Definition closed_graph (g : gmap git_oid Commit) : Prop :=
  ∀ id p, parent_of g id p → is_Some (g !! p).

Definition acyclic_graph (g : gmap git_oid Commit) : Prop :=
  Irreflexive (tc (parent_of g)).

(** The first-parent chain from a commit down to the root, newest first. *)
Inductive first_parent_chain (g : gmap git_oid Commit) : git_oid → list git_oid → Prop :=
  | chain_root id c :
      g !! id = Some c → parentIds c = [] → first_parent_chain g id [id]
  | chain_step id c p ps rest :
      g !! id = Some c → parentIds c = p :: ps → first_parent_chain g p rest →
      first_parent_chain g id (id :: rest).

Section Histories.
Context {W : Type} `{LibGit2 W}.

(** The library serves the commits of [g]. *)
Definition serves (repo : git_repository) (w : W) (g : gmap git_oid Commit) : Prop :=
  ∀ id c, g !! id = Some c → git_commit_lookup repo id w = Success (mkCommitHandle id c).

(** How the diff of commit [id] against commit [p], the one the loop makes
    when [p] is the first parent of [id], ends. *)
Definition diff_outcome (repo : git_repository) (w : W) (g : gmap git_oid Commit)
    (id p : git_oid) (r : outcome unit) : Prop :=
  ∃ c pc, g !! id = Some c ∧ g !! p = Some pc ∧
          (dumpDiff repo (mkCommitHandle p pc) (mkCommitHandle id c) w).1.1 = r.

(** Along the list [l], the diff of every commit against the next one can be
    made and printed. *)
Fixpoint diffs_along (repo : git_repository) (w : W) (g : gmap git_oid Commit)
    (l : list git_oid) : Prop :=
  match l with
  | [] => True
  | id :: rest =>
      match rest with
      | [] => True
      | p :: _ => diff_outcome repo w g id p (Normal tt) ∧ diffs_along repo w g rest
      end
  end.

(** One turn of the loop of [findAllOnMaster]: from a commit to the first
    parent the library hands out. *)
Definition first_parent_step (repo : git_repository) (w : W) (c p : git_commit) : Prop :=
  git_commit_parentcount c ≠ 0 ∧
  git_commit_lookup repo (git_commit_parent_id c 0) w = Success p.

(** The repository handle and the world with which [main] enters
    [findAllOnMaster], when it gets there. *)
Definition walk_entry (w : W) : option (git_repository * W) :=
  match git_libgit2_init w with
  | (Success _, w1) =>
      match current_path w1 with
      | Some cwd =>
          match create_directories (path_append cwd "../GitToolPlayground") w1 with
          | Some w2 =>
              match git_repository_open (path_append cwd "../GitToolPlayground") w2 with
              | (Success repo, w3) =>
                  match git_repository_workdir repo with
                  | Some _ => Some (repo, w3)
                  | None => None
                  end
              | _ => None
              end
          | None => None
          end
      | None => None
      end
  | _ => None
  end.

(** A computation that leaves the world as it is, needs no fuel, and prints
    no commit line. *)
Definition quiet {A} (m : M W A) : Prop :=
  ∀ w, ∃ r t, m w = (r, w, t) ∧ r ≠ OutOfFuel ∧ visited t = [].

(** Computations that stay within defined behaviour. *)
Definition defined {A} (m : M W A) (w : W) : Prop := (m w).1.1 ≠ Undefined.

End Histories.

(** ** 15. Handles freed *)

(** The index handles a run has passed to [git_index_free], in order. *)
Definition index_frees (t : list event) : list git_index :=
  omap (λ e, match e with Free (HIndex i) => Some i | _ => None end) t.

Definition signature_message : string :=
  "Unable to create a commit signature. Perhaps 'user.name' and 'user.email' are not set".

(** ** 16. A fresh repository *)

(** The state [init] leaves behind, with an author configured. *)
Definition initialized (name email : string) (now : Z) : RepositoryState :=
  mkRepo Initialized true (mkStore [] []) ∅ "refs/heads/master" [] (Some (name, email)) now.

(** The commit [create_initial_commit] writes there. *)
Definition initial_commit `{Digest} (name email : string) (now : Z) : Commit :=
  mkCommit (id_of_object (Tree [])) [] (mkSignature name email now)
           (mkSignature name email now) "Initial commit".

(** The state after the initial commit in a fresh repository. *)
Definition after_initial_commit `{Digest} (name email : string) (now : Z) : RepositoryState :=
  mkRepo Initialized true
    (mkStore [(id_of_object (Tree []), Tree []);
              (id_of_object (CommitObject (initial_commit name email now)),
               CommitObject (initial_commit name email now))] [])
    {[ "refs/heads/master" := id_of_object (CommitObject (initial_commit name email now)) ]}
    "refs/heads/master" [] (Some (name, email)) now.

(** ** 17. An example history *)

(** Commit [A] holds [f.txt] with content x, commit [B] on top of it holds
    [f.txt] with content y; [master] points to [B]. *)
Definition example_id : object → git_oid := @id_of_object fnv_digest.

Definition example_author : git_signature := mkSignature "author" "author@example.org" 0.

Definition blob_x : object := Blob (list_byte_of_string "x").
Definition blob_y : object := Blob (list_byte_of_string "y").
Definition tree_x : object := Tree [mkEntry "f.txt" ModeFile (example_id blob_x)].
Definition tree_y : object := Tree [mkEntry "f.txt" ModeFile (example_id blob_y)].

Definition commit_A : Commit :=
  mkCommit (example_id tree_x) [] example_author example_author "A".
Definition id_A : git_oid := example_id (CommitObject commit_A).

Definition commit_B : Commit :=
  mkCommit (example_id tree_y) [id_A] example_author example_author "B".

Definition id_B : git_oid := example_id (CommitObject commit_B).

Definition example_store : ObjectStoreState :=
  mkStore [(example_id blob_x, blob_x); (example_id tree_x, tree_x);
           (id_A, CommitObject commit_A);
           (example_id blob_y, blob_y); (example_id tree_y, tree_y);
           (id_B, CommitObject commit_B)] [].

Definition example_history : RepositoryState :=
  mkRepo Opened true example_store {[ "refs/heads/master" := id_B ]}
         "refs/heads/master" [] (Some ("author", "author@example.org")) 0.

Definition example_graph : gmap git_oid Commit :=
  <[id_B := commit_B]> {[ id_A := commit_A ]}.

Definition example_repo : git_repository := mkRepository (Some "./../GitToolPlayground").

(** The same history in a store that lacks the tree of [B]. *)
Definition incomplete_store : ObjectStoreState :=
  mkStore [(example_id blob_x, blob_x); (example_id tree_x, tree_x);
           (id_A, CommitObject commit_A);
           (example_id blob_y, blob_y);
           (id_B, CommitObject commit_B)] [].

Definition incomplete_history : RepositoryState :=
  mkRepo Opened true incomplete_store {[ "refs/heads/master" := id_B ]}
         "refs/heads/master" [] (Some ("author", "author@example.org")) 0.

(** ** 18. What a run frees and reports *)

(** The handles a run has freed, in order. *)
Definition frees (t : list event) : list handle :=
  omap (λ e, match e with Free h => Some h | _ => None end) t.

Definition commit_frees (t : list event) : list git_commit :=
  omap (λ e, match e with Free (HCommit c) => Some c | _ => None end) t.

Definition diff_frees (t : list event) : list git_diff :=
  omap (λ e, match e with Free (HDiff d) => Some d | _ => None end) t.

Definition object_frees (t : list event) : list git_object :=
  omap (λ e, match e with Free (HObject o) => Some o | _ => None end) t.

(** The messages of the error lines a run has printed. *)
Definition error_lines (t : list event) : list string :=
  omap (λ e, match e with LogError m _ _ _ => Some m | _ => None end) t.

(** The commits a store holds, in the order they were written. *)
Definition commits_of (os : ObjectStoreState) : list (git_oid * Commit) :=
  omap (λ p, match p.2 with CommitObject c => Some (p.1, c) | _ => None end) (objects os).

(** The [Done.] and [Created empty initial commit.] lines. *)
Definition done_lines (t : list event) : list unit :=
  omap (λ e, match e with LogDone => Some tt | _ => None end) t.

Definition created_lines (t : list event) : list unit :=
  omap (λ e, match e with LogCreated => Some tt | _ => None end) t.

(** The parent counts of the commit lines, and the exceptions [main] has
    reported. *)
Definition commit_counts (t : list event) : list nat :=
  omap (λ e, match e with LogCommit _ n => Some n | _ => None end) t.

Definition exception_lines (t : list event) : list exn :=
  omap (λ e, match e with LogException x => Some x | _ => None end) t.

Definition signatures_of (hs : list handle) : list git_signature :=
  omap (λ h, match h with HSignature s => Some s | _ => None end) hs.

Definition trees_of (hs : list handle) : list git_tree :=
  omap (λ h, match h with HTree t => Some t | _ => None end) hs.

Section Observations.
Context {W : Type} `{LibGit2 W}.

(** Where a failed check leaves the run: with the error line, the exception
    and then what the guards passed on the way out do, [cleanup]; or, when
    the call has recorded no error, at the read of the null record. *)
Definition failed {A} (message : string) (code : positive) (e : option git_error) (w : W)
    (cleanup : list event) : outcome A * W * list event :=
  match e with
  | Some e => (Throw TooBad, w, LogError message (Z.neg code) (klass e) (detail e) :: cleanup)
  | None => (Undefined, w, [])
  end.

(** The guard of line 216 of [main]. *)
Definition library_shutdown : M W unit :=
  r ← call git_libgit2_shutdown;
  logOnGitError (error_of r) (giterr_last r) "Git shutdown failed.".

(** Lines 218 to 227 of [main]: what runs under the shutdown guard. *)
Definition main_session (fuel : nat) : M W unit :=
  cwd ← fs_query current_path;
  let repoPath := path_append cwd "../GitToolPlayground" in
  fs_call (create_directories repoPath) ;;
  repo ← open_repo repoPath;
  scope_exit (out (Free (HRepository repo))) (findAllOnMaster fuel repo).

(** The [try] block of [main]. *)
Definition main_body (fuel : nat) : M W unit :=
  r ← call git_libgit2_init;
  checked r "Git initialization failed." ;;
  scope_exit library_shutdown (main_session fuel).

(** A failure is [throw "Too bad."] after one error line; no error line is
    printed otherwise. *)
Definition reports {A} (m : M W A) : Prop :=
  ∀ w, match (m w).1.1 with
       | Normal _ => error_lines (m w).2 = []
       | Throw e => e = TooBad ∧ length (error_lines (m w).2) = 1
       | OutOfFuel | Undefined => True
       end.

(** The handles [dumpDiff] gets from the library, in the order it gets them. *)
Definition dumpDiff_acquired (repo : git_repository) (commit0 commit1 : git_commit) (w : W)
  : list handle :=
  match git_commit_tree commit0 w with
  | Failure _ _ => []
  | Success tree0 =>
      match git_commit_tree commit1 w with
      | Failure _ _ => [HTree tree0]
      | Success tree1 =>
          match git_diff_tree_to_tree repo tree0 tree1 w with
          | Failure _ _ => [HTree tree0; HTree tree1]
          | Success diff => [HTree tree0; HTree tree1; HDiff diff]
          end
      end
  end.

(** The handles [create_initial_commit] gets from the library, in order. *)
Definition create_initial_commit_acquired (repo : git_repository) (w : W) : list handle :=
  match git_signature_default repo w with
  | Failure _ _ => []
  | Success sig =>
      match git_repository_index repo w with
      | Failure _ _ => [HSignature sig]
      | Success index =>
          match git_index_write_tree index w with
          | (Failure _ _, _) => [HSignature sig; HIndex index]
          | (Success tree_id, w1) =>
              match git_tree_lookup repo tree_id w1 with
              | Failure _ _ => [HSignature sig; HIndex index]
              | Success tree => [HSignature sig; HIndex index; HTree tree]
              end
          end
      end
  end.

(** The outcome of [findAllOnMaster] for what its loop has returned. *)
Definition walk_exit (res : outcome (git_commit * option exn)) : outcome unit :=
  match res with
  | Normal (_, None) => Normal tt
  | Normal (_, Some e) => Throw e
  | Throw e => Throw e
  | OutOfFuel => OutOfFuel
  | Undefined => Undefined
  end.

(** A failed call has left an error record: [giterr_last()] is not null
    after it. *)
Definition recorded {T} (r : ret T) : Prop := ∀ code, r ≠ Failure code None.

(** The library leaves an error record with every failure of the calls the
    walk makes. *)
Definition walk_errors_recorded (repo : git_repository) (w : W) : Prop :=
  recorded (git_revparse_single repo "master" w) ∧
  (∀ id, recorded (git_commit_lookup repo id w)) ∧
  (∀ c, recorded (git_commit_tree c w)) ∧
  (∀ t0 t1, recorded (git_diff_tree_to_tree repo t0 t1 w)) ∧
  (∀ d, recorded (git_diff_print d w).2).

(** The same for the calls [main] makes itself, in whatever state the
    library is by then, and the repository it opens has a working
    directory. *)
Definition main_errors_recorded (w : W) : Prop :=
  recorded (git_libgit2_init w).1 ∧
  (∀ w', recorded (git_libgit2_shutdown w').1) ∧
  (∀ p w', recorded (git_repository_open p w').1) ∧
  (∀ p w' repo w'', git_repository_open p w' = (Success repo, w'') →
     is_Some (git_repository_workdir repo) ∧ walk_errors_recorded repo w'').

(** A set of commits from each of which the walk goes on: the first parent
    is served, is in the set again, and its diff can be printed. *)
Definition walk_goes_on (repo : git_repository) (w : W) (S : git_commit → Prop) : Prop :=
  ∀ c, S c → ∃ p, S p ∧ first_parent_step repo w c p ∧
                  (dumpDiff repo p c w).1.1 = Normal tt.

End Observations.

(** A directory that holds no repository. *)
Definition no_repository : RepositoryState :=
  mkRepo Uninitialized false (mkStore [] []) ∅ "" [] None 0.

(** A history whose only commit is its own first parent. *)
Definition commit_loop : Commit :=
  mkCommit (example_id tree_x) [7%N] example_author example_author "loop".

Definition cyclic_history : RepositoryState :=
  mkRepo Opened true
    (mkStore [(example_id blob_x, blob_x); (example_id tree_x, tree_x);
              (7%N, CommitObject commit_loop)] [])
    {[ "refs/heads/master" := 7%N ]} "refs/heads/master" []
    (Some ("author", "author@example.org")) 0.

(** * Properties *)

(** ** Names are totally ordered *)

Lemma name_compare_refl (a : string) : String_as_OT.compare a a = Eq.
Proof.
  destruct (String_as_OT.compare_spec a a) as [_|Hlt|Hlt]; [done| |];
    by apply (irreflexivity String_as_OT.lt) in Hlt.
Qed.

Lemma name_le_cases (a b : string) : name_le a b ↔ a = b ∨ String_as_OT.lt a b.
Proof.
  unfold name_le. split.
  - destruct (String_as_OT.compare_spec a b) as [->|Hlt|Hlt]; [by left|by right|done].
  - intros [->|Hlt]; [by rewrite name_compare_refl|].
    unfold String_as_OT.lt in Hlt. by rewrite Hlt.
Qed.

Global Instance name_le_total : Total name_le.
Proof.
  intros a b. destruct (String_as_OT.compare_spec a b) as [->|Hlt|Hlt].
  - left. apply name_le_cases. by left.
  - left. apply name_le_cases. by right.
  - right. apply name_le_cases. by right.
Qed.

Global Instance name_le_trans : Transitive name_le.
Proof.
  intros a b c [->|Hab]%name_le_cases [->|Hbc]%name_le_cases; apply name_le_cases; auto.
  right. by transitivity b.
Qed.

Global Instance name_le_antisym : AntiSymm (=) name_le.
Proof.
  intros a b [->|Hab]%name_le_cases [Heq|Hba]%name_le_cases; try done.
  exfalso. apply (irreflexivity String_as_OT.lt a). by transitivity b.
Qed.

Global Instance entry_le_total : Total entry_le.
Proof. intros a b. apply (total name_le). Qed.

Global Instance entry_le_trans : Transitive entry_le.
Proof. intros a b c. apply (transitivity (R := name_le)). Qed.

(** ** ObjectStore *)

Section ObjectStoreFacts.
Context `{Digest}.

Lemma find_Some_elem (os : ObjectStoreState) id o :
  ObjectStore.find os id = Some o → (id, o) ∈ objects os.
Proof.
  unfold ObjectStore.find. destruct (List.find _ _) as [[i o']|] eqn:Hf; [|done].
  intros [= ->]. apply find_some in Hf as [Hin Hb].
  apply bool_decide_eq_true in Hb. simpl in Hb. subst. by apply list_elem_of_In.
Qed.

Lemma find_None_keys (os : ObjectStoreState) id :
  ObjectStore.find os id = None ↔ id ∉ (objects os).*1.
Proof.
  unfold ObjectStore.find. split.
  - destruct (List.find _ _) eqn:Hf; [done|]. intros _ Hin.
    apply list_elem_of_fmap in Hin as [[i o] [-> Hin]].
    apply list_elem_of_In in Hin.
    pose proof (find_none _ _ Hf _ Hin) as Hb. simpl in Hb.
    by apply bool_decide_eq_false in Hb.
  - intros Hnot. destruct (List.find _ _) as [[i o]|] eqn:Hf; [|done].
    apply find_some in Hf as [Hin Hb]. apply bool_decide_eq_true in Hb. simpl in Hb.
    subst. exfalso. apply Hnot. apply list_elem_of_fmap. exists (id, o).
    split; [done|]. by apply list_elem_of_In.
Qed.

Lemma contains_keys (os : ObjectStoreState) id :
  ObjectStore.contains os id = true ↔ id ∈ (objects os).*1.
Proof.
  unfold ObjectStore.contains. rewrite bool_decide_eq_true.
  destruct (ObjectStore.find os id) eqn:Hf.
  - split; [intros _|by eauto]. apply find_Some_elem in Hf.
    apply list_elem_of_fmap. by exists (id, o).
  - apply find_None_keys in Hf. split; [by intros [? ?]|done].
Qed.

Lemma contains_false_keys (os : ObjectStoreState) id :
  ObjectStore.contains os id = false ↔ id ∉ (objects os).*1.
Proof. rewrite <-contains_keys. by destruct (ObjectStore.contains os id). Qed.

Lemma copies_absent (os : ObjectStoreState) id :
  id ∉ (objects os).*1 → ObjectStore.copies os id = 0.
Proof.
  unfold ObjectStore.copies. destruct os as [l f]. simpl.
  induction l as [|[k v] l IH]; [done|]. simpl. intros Hnot.
  rewrite not_elem_of_cons in Hnot. destruct Hnot as [Hne Hnot].
  rewrite filter_cons_False by (simpl; congruence). auto.
Qed.

Lemma copies_present (os : ObjectStoreState) id :
  ObjectStore.well_formed os → id ∈ (objects os).*1 → ObjectStore.copies os id = 1.
Proof.
  unfold ObjectStore.copies, ObjectStore.well_formed. destruct os as [l f]. simpl.
  induction l as [|[k v] l IH]; simpl; [by intros _ ?%elem_of_nil|].
  intros [Hk Hnd]%NoDup_cons Hin. destruct (decide (k = id)) as [->|Hne].
  - rewrite filter_cons_True by done. simpl. f_equal.
    apply (copies_absent (mkStore l f)). done.
  - rewrite filter_cons_False by done. apply IH; [done|].
    apply elem_of_cons in Hin as [?|?]; [congruence|done].
Qed.

Lemma write_cases (os : ObjectStoreState) (o : object) :
  let id := id_of_object o in
  (ObjectStore.contains os id = true ∧ ObjectStore.write os o = (Ok id, os)) ∨
  (ObjectStore.contains os id = false ∧
   ((∃ rest, faults os = true :: rest ∧
             ObjectStore.write os o = (Err StorageError, mkStore (objects os) rest)) ∨
    (∃ rest, ObjectStore.write os o = (Ok id, mkStore (objects os ++ [(id, o)]) rest)))).
Proof.
  simpl. unfold ObjectStore.write.
  destruct (ObjectStore.contains os (id_of_object o)) eqn:Hc; [by left|right].
  split; [done|]. destruct (faults os) as [|[] rest]; eauto.
Qed.

Lemma write_well_formed (os os' : ObjectStoreState) o r :
  ObjectStore.well_formed os → ObjectStore.write os o = (r, os') →
  ObjectStore.well_formed os'.
Proof.
  intros Hwf Hw.
  destruct (write_cases os o) as [[_ Heq]|[Hc [(rest & _ & Heq)|[rest Heq]]]];
    rewrite Heq in Hw; injection Hw as <- <-; try done.
  unfold ObjectStore.well_formed in *. simpl. rewrite fmap_app. simpl.
  apply NoDup_app. split_and!; [done| |apply NoDup_singleton].
  intros x Hx ->%list_elem_of_singleton. by apply contains_false_keys in Hc.
Qed.

Lemma write_Ok_contains (os os' : ObjectStoreState) o id :
  ObjectStore.write os o = (Ok id, os') →
  id = id_of_object o ∧ ObjectStore.contains os' id = true.
Proof.
  intros Hw.
  destruct (write_cases os o) as [[Hc Heq]|[Hc [(rest & _ & Heq)|[rest Heq]]]];
    rewrite Heq in Hw; simplify_eq; split; try done.
  apply contains_keys. simpl. rewrite fmap_app. simpl. set_solver.
Qed.

End ObjectStoreFacts.

(** C3.  Writing the same object a second time returns the same id and
    changes nothing: the store, in which every id is stored once, holds
    exactly one copy of it. *)
Theorem write_idempotent `{Digest} (os os1 : ObjectStoreState) (o : object) (id : git_oid) :
  ObjectStore.well_formed os →
  ObjectStore.write os o = (Ok id, os1) →
  ObjectStore.write os1 o = (Ok id, os1) ∧
  ObjectStore.copies os1 id = 1.
Proof.
  intros Hwf Hw.
  pose proof (write_well_formed _ _ _ _ Hwf Hw) as Hwf1.
  destruct (write_Ok_contains _ _ _ _ Hw) as [-> Hc].
  assert (ObjectStore.write os1 o = (Ok (id_of_object o), os1)) as Hw2.
  { unfold ObjectStore.write. by rewrite Hc. }
  split; [done|].
  apply copies_present; [done|]. by apply contains_keys.
Qed.

Lemma write_idempotent_witness :
  let os := mkStore [] [false; true] in
  let o := Blob [Byte.x68; Byte.x69] in
  let w := @ObjectStore.write fnv_digest os o in
  @ObjectStore.write fnv_digest w.2 o = (w.1, w.2) ∧ ObjectStore.copies w.2 (@id_of_object fnv_digest o) = 1.
Proof.
  simpl.
  destruct (@write_idempotent fnv_digest (mkStore [] [false; true])
              (@ObjectStore.write fnv_digest (mkStore [] [false; true]) (Blob [Byte.x68; Byte.x69])).2
              (Blob [Byte.x68; Byte.x69])
              (@id_of_object fnv_digest (Blob [Byte.x68; Byte.x69])))
    as (H1 & H2).
  - apply NoDup_nil_2.
  - vm_compute. reflexivity.
  - split; [exact H1 | exact H2].
Defined.

(** ** TreeBuilder *)

Lemma sort_entries_sorted (es : list TreeEntry) :
  StronglySorted entry_le (TreeBuilder.sort_entries es).
Proof. apply StronglySorted_merge_sort; apply _. Qed.

Lemma sort_entries_perm (es : list TreeEntry) : TreeBuilder.sort_entries es ≡ₚ es.
Proof. apply merge_sort_Permutation. Qed.

(** Entries with pairwise different names have one name-sorted arrangement. *)
Lemma sort_entries_unique (es es' : list TreeEntry) :
  NoDup (entry_name <$> es) → es ≡ₚ es' →
  TreeBuilder.sort_entries es' = TreeBuilder.sort_entries es.
Proof.
  intros Hnd Hperm.
  apply (StronglySorted_unique_strong entry_le); try apply sort_entries_sorted.
  - intros x1 x2 Hx1 Hx2 H12 H21.
    rewrite sort_entries_perm in Hx1. rewrite sort_entries_perm in Hx2.
    rewrite <-Hperm in Hx1.
    assert (entry_name x1 = entry_name x2) as Hname
      by (apply (anti_symm name_le); done).
    apply list_elem_of_lookup in Hx1 as [i Hi]. apply list_elem_of_lookup in Hx2 as [j Hj].
    assert (i = j) as ->.
    { eapply NoDup_lookup; [exact Hnd| |]; rewrite list_lookup_fmap.
      - by rewrite Hi.
      - rewrite Hj. simpl. by rewrite Hname. }
    congruence.
  - by rewrite !sort_entries_perm.
Qed.

(** C4.  For entries with pairwise different names, the tree builder gives
    every arrangement of them the same sorted serialization, hence the same
    result and the same ObjectId. *)
Theorem build_order_independent `{Digest} (os : ObjectStoreState) (es es' : list TreeEntry) :
  NoDup (entry_name <$> es) → es ≡ₚ es' →
  TreeBuilder.build os es' = TreeBuilder.build os es ∧
  ∀ id os1 id' os1',
    TreeBuilder.build os es = (Ok id, os1) →
    TreeBuilder.build os es' = (Ok id', os1') →
    id' = id ∧ id = id_of_object (Tree (TreeBuilder.sort_entries es)).
Proof.
  intros Hnd Hperm.
  assert (TreeBuilder.build os es' = TreeBuilder.build os es) as Heq.
  { unfold TreeBuilder.build.
    rewrite (bool_decide_ext (NoDup (entry_name <$> es')) (NoDup (entry_name <$> es)))
      by (by rewrite Hperm).
    by rewrite (sort_entries_unique es es'). }
  split; [done|]. intros id os1 id' os1' Hb Hb'.
  rewrite Heq, Hb in Hb'. split; [congruence|].
  unfold TreeBuilder.build in Hb. rewrite bool_decide_eq_true_2 in Hb by done.
  by apply write_Ok_contains in Hb as [-> _].
Qed.

Lemma build_order_independent_witness :
  let a := mkEntry "a.txt" ModeFile 7%N in
  let b := mkEntry "b" ModeDirectory 9%N in
  let c := mkEntry "c.sh" ModeExecutable 11%N in
  @TreeBuilder.build fnv_digest ObjectStore.empty [c; a; b]
  = @TreeBuilder.build fnv_digest ObjectStore.empty [a; b; c].
Proof.
  simpl.
  refine (proj1 (@build_order_independent fnv_digest ObjectStore.empty
            [mkEntry "a.txt" ModeFile 7%N; mkEntry "b" ModeDirectory 9%N; mkEntry "c.sh" ModeExecutable 11%N]
            [mkEntry "c.sh" ModeExecutable 11%N; mkEntry "a.txt" ModeFile 7%N; mkEntry "b" ModeDirectory 9%N]
            _ _)).
  - compute_done.
  - symmetry. apply (Permutation_cons_append [_; _]).
Defined.

(** ** CommitGraph: parent links point backwards *)

Section CommitGraphFacts.
Context `{Digest}.

Lemma causal_empty fs : causal (mkStore [] fs).
Proof. split; simpl; [apply NoDup_nil_2|]. intros i id c p Hi. by rewrite lookup_nil in Hi. Qed.

Lemma causal_faults l fs fs' : causal (mkStore l fs) → causal (mkStore l fs').
Proof. done. Qed.

Lemma causal_append l fs fs' id o :
  causal (mkStore l fs) → id ∉ l.*1 →
  (∀ c p, o = CommitObject c → p ∈ parentIds c → p ∈ l.*1) →
  causal (mkStore (l ++ [(id, o)]) fs').
Proof.
  intros [Hnd Hback] Hfresh Hparents. simpl in *. split; simpl.
  - rewrite fmap_app. simpl. apply NoDup_app. split_and!; [done| |apply NoDup_singleton].
    by intros x Hx ->%list_elem_of_singleton.
  - intros i k c p Hi Hp. destruct (decide (i < length l)) as [Hlt|Hge].
    + rewrite lookup_app_l in Hi by done.
      destruct (Hback i k c p Hi Hp) as (j & Hj & Hjp). exists j. split; [done|].
      rewrite fmap_app, lookup_app_l; [done|]. rewrite length_fmap. lia.
    + rewrite lookup_app_r in Hi by lia.
      destruct (i - length l) as [|n] eqn:Hn; [|by rewrite lookup_cons, lookup_nil in Hi].
      simpl in Hi. injection Hi as <- ->.
      specialize (Hparents c p eq_refl Hp).
      apply list_elem_of_lookup in Hparents as [j Hj]. exists j.
      pose proof (lookup_lt_Some _ _ _ Hj) as Hlen. rewrite length_fmap in Hlen.
      split; [lia|]. rewrite fmap_app, lookup_app_l; [done|]. rewrite length_fmap. lia.
Qed.

Lemma causal_write os o :
  causal os →
  (∀ c p, o = CommitObject c → p ∈ parentIds c → ObjectStore.contains os p = true) →
  causal (ObjectStore.write os o).2.
Proof.
  intros Hc Hparents.
  destruct (write_cases os o) as [[_ Heq]|[Hno [(rest & _ & Heq)|[rest Heq]]]];
    rewrite Heq; simpl; destruct os as [l fs]; try done.
  eapply causal_append; [exact Hc|by apply contains_false_keys in Hno|].
  intros c p -> Hp. apply (contains_keys (mkStore l fs)). eauto.
Qed.

Lemma forallb_false_elem {A} (f : A → bool) (l : list A) :
  forallb f l = false → ∃ x, x ∈ l ∧ f x = false.
Proof.
  induction l as [|x l IH]; simpl; [done|].
  destruct (f x) eqn:Hx; simpl.
  - intros (y & Hy & Hfy)%IH. exists y. split; [by right|done].
  - intros _. exists x. split; [by left|done].
Qed.

Lemma create_cases os tree parents a c msg :
  (ObjectStore.contains os tree = true ∧
   (∀ p, p ∈ parents → ObjectStore.contains os p = true) ∧
   CommitGraph.create os tree parents a c msg =
     ObjectStore.write os (CommitObject (mkCommit tree parents a c msg))) ∨
  ((ObjectStore.contains os tree = false ∨
    ∃ p, p ∈ parents ∧ ObjectStore.contains os p = false) ∧
   CommitGraph.create os tree parents a c msg = (Err DanglingReferenceError, os)).
Proof.
  unfold CommitGraph.create.
  destruct (ObjectStore.contains os tree) eqn:Ht; simpl; [|right; auto].
  destruct (forallb (ObjectStore.contains os) parents) eqn:Hp.
  - left. split_and!; [done| |done]. intros p Hin.
    rewrite forallb_forall in Hp. apply Hp. by apply list_elem_of_In.
  - right. split; [|done]. right.
    by apply forallb_false_elem in Hp.
Qed.

Lemma causal_create os tree parents a c msg :
  causal os → causal (CommitGraph.create os tree parents a c msg).2.
Proof.
  intros Hc.
  destruct (create_cases os tree parents a c msg) as [(_ & Hp & ->)|[_ ->]]; [|done].
  apply causal_write; [done|]. intros c' p [= <-] Hin. simpl in Hin. auto.
Qed.

Lemma reachable_causal os : reachable os → causal os.
Proof.
  induction 1 as [fs|os payload _ IH|os entries _ IH|os tree parents a c msg _ IH].
  - apply causal_empty.
  - by apply causal_write.
  - unfold TreeBuilder.build. case_bool_decide; [|done]. by apply causal_write.
  - by apply causal_create.
Qed.

(** A parent link goes from a later position to an earlier one. *)
Lemma parent_link_backwards os a b :
  causal os → CommitGraph.parent_link os a b →
  ∃ i j, (objects os).*1 !! i = Some a ∧ (objects os).*1 !! j = Some b ∧ j < i.
Proof.
  intros [Hnd Hback] (c & Hl & Hp). unfold CommitGraph.lookup, ObjectStore.read in Hl.
  destruct (ObjectStore.find os a) as [o|] eqn:Hf; [|done].
  destruct o as [| |c']; try done. injection Hl as ->.
  apply find_Some_elem, list_elem_of_lookup in Hf as [i Hi].
  destruct (Hback i a c b Hi Hp) as (j & Hj & Hjb). exists i, j. split_and!; [|done..].
  by rewrite list_lookup_fmap, Hi.
Qed.

Lemma tc_parent_link_backwards os a b :
  causal os → tc (CommitGraph.parent_link os) a b →
  ∃ i j, (objects os).*1 !! i = Some a ∧ (objects os).*1 !! j = Some b ∧ j < i.
Proof.
  intros Hc. induction 1 as [a b Hab|a b c Hab _ IH].
  - by apply parent_link_backwards.
  - destruct (parent_link_backwards _ _ _ Hc Hab) as (i & j & Hi & Hj & Hlt).
    destruct IH as (i' & j' & Hi' & Hj' & Hlt').
    assert (j = i') as -> by (eapply NoDup_lookup; [apply Hc|done..]).
    exists i, j'. split_and!; [done..|lia].
Qed.

Lemma causal_acyclic os : causal os → CommitGraph.acyclic os.
Proof.
  intros Hc a Hloop.
  destruct (tc_parent_link_backwards _ _ _ Hc Hloop) as (i & j & Hi & Hj & Hlt).
  assert (i = j) by (eapply NoDup_lookup; [apply Hc|done..]). lia.
Qed.

End CommitGraphFacts.

(** C8.  In every reachable state of the store the commit graph has no cycle,
    and [CommitGraph.create] keeps it so: it refuses a parent that is not in
    the store, so the parents of a commit it writes were there before it. *)
Theorem commit_graph_acyclic `{Digest} :
  (∀ os, reachable os → CommitGraph.acyclic os) ∧
  (∀ os tree parents a c msg,
     reachable os → CommitGraph.acyclic (CommitGraph.create os tree parents a c msg).2) ∧
  (∀ os tree parents a c msg p,
     p ∈ parents → ObjectStore.contains os p = false →
     CommitGraph.create os tree parents a c msg = (Err DanglingReferenceError, os)) ∧
  (∀ os tree parents a c msg id os',
     CommitGraph.create os tree parents a c msg = (Ok id, os') →
     ∀ p, p ∈ parents → ObjectStore.contains os p = true).
Proof.
  split_and!.
  - intros os Hr. by apply causal_acyclic, reachable_causal.
  - intros os tree parents a c msg Hr. by apply causal_acyclic, causal_create, reachable_causal.
  - intros os tree parents a c msg p Hin Hno.
    destruct (create_cases os tree parents a c msg) as [(_ & Hp & _)|[_ ->]]; [|done].
    rewrite (Hp p Hin) in Hno. done.
  - intros os tree parents a c msg id os' Hcreate p Hin.
    destruct (create_cases os tree parents a c msg) as [(_ & Hp & _)|[_ Heq]]; [by auto|].
    rewrite Heq in Hcreate. done.
Qed.

(** ** RefStore and commit creation: no partial update *)

Lemma update_cases (os : ObjectStoreState) (m : gmap string git_oid) name id :
  (ObjectStore.contains os id = true ∧ RefStore.update os m name id = (Ok tt, <[name := id]> m)) ∨
  (ObjectStore.contains os id = false ∧
   RefStore.update os m name id = (Err DanglingReferenceError, m)).
Proof. unfold RefStore.update. destruct (ObjectStore.contains os id); auto. Qed.

Lemma commit_failed_refs `{Digest} r refName tree parents a c msg e r' :
  Repository.commit r refName tree parents a c msg = (Err e, r') → refs r' = refs r.
Proof.
  unfold Repository.commit.
  destruct (CommitGraph.create _ _ _ _ _ _) as [[id|e'] os]; [|by intros [= _ <-]].
  destruct (update_cases os (refs r) refName id) as [[_ ->]|[_ ->]]; [done|].
  by intros [= _ <-].
Qed.

(** ** DiffEngine *)

Section DiffFacts.

Global Instance mirror_inj : Inj (=) (=) DiffEngine.mirror.
Proof. intros [] []; simpl; congruence. Qed.

Lemma mirror_involutive c : DiffEngine.mirror (DiffEngine.mirror c) = c.
Proof. by destruct c. Qed.












End DiffFacts.


(** ** Paths *)

(** A separator goes in between only where one is needed. *)
Lemma posix_append_cases (p q : string) :
  q ≠ "" → is_separator (first_char q) = false →
  posix_append p q =
    if bool_decide (p = "") || is_separator (last_char p) then p +:+ q
    else p +:+ "/" +:+ q.
Proof.
  intros Hq Hfirst. unfold posix_append.
  by rewrite bool_decide_eq_false_2, Hfirst.
Qed.

Example posix_append_root : posix_append "/" "../GitToolPlayground" = "/../GitToolPlayground".
Proof. reflexivity. Qed.

Example posix_append_directory :
  posix_append "/home/user/GitTool" "../GitToolPlayground"
  = "/home/user/GitTool/../GitToolPlayground".
Proof. reflexivity. Qed.

(** ** The program: runs that only read *)

Section Quiet.
Context {W : Type} `{LibGit2 W}.

Lemma quiet_ret {A} (a : A) : quiet (W:=W) (mret a : M W A).
Proof. intros w. by exists (Normal a), []. Qed.

Lemma quiet_throw {A} e : quiet (W:=W) (throw e : M W A).
Proof. intros w. by exists (Throw e), []. Qed.

Lemma quiet_undefined {A} : quiet (W:=W) (undefined : M W A).
Proof. intros w. by exists Undefined, []. Qed.

Lemma quiet_query {T} (f : W → T) : quiet (W:=W) (query f).
Proof. intros w. by exists (Normal (f w)), []. Qed.

Lemma quiet_out e : visited [e] = [] → quiet (W:=W) (out e : M W unit).
Proof. intros He w. by exists (Normal tt), [e]. Qed.

Lemma visited_app t1 t2 : visited (t1 ++ t2) = visited t1 ++ visited t2.
Proof. apply omap_app. Qed.

Lemma visited_commit id n t : visited (LogCommit id n :: t) = id :: visited t.
Proof. done. Qed.

Lemma visited_free h t : visited (Free h :: t) = visited t.
Proof. done. Qed.

Lemma quiet_bind {A B} (m : M W A) (f : A → M W B) :
  quiet (W:=W) m → (∀ a, quiet (W:=W) (f a)) → quiet (W:=W) (m ≫= f).
Proof.
  intros Hm Hf w. destruct (Hm w) as (r & t & Heq & Hr & Ht).
  unfold mbind, M_bind. rewrite Heq. destruct r as [a|e| |]; [|by eauto|done|by eauto].
  destruct (Hf a w) as (r' & t' & -> & Hr' & Ht'). exists r', (t ++ t').
  by rewrite visited_app, Ht, Ht'.
Qed.

Lemma quiet_scope_exit {A} (cleanup : M W unit) (body : M W A) :
  quiet (W:=W) cleanup → quiet (W:=W) body → quiet (W:=W) (scope_exit cleanup body).
Proof.
  intros Hc Hb w. destruct (Hb w) as (r & t & Heq & Hr & Ht).
  destruct (Hc w) as (r' & t' & Heq' & Hr' & Ht').
  unfold scope_exit. rewrite Heq.
  destruct r as [a|e| |]; [| |done|by eauto]; rewrite Heq';
    (destruct r' as [?|?| |]; [| |done|]); eexists _, _; (split; [done|]);
    by rewrite visited_app, Ht, Ht'.
Qed.

Lemma quiet_logOnGitError error e message : quiet (W:=W) (logOnGitError error e message).
Proof.
  unfold logOnGitError. destruct (error <? 0)%Z; [|apply quiet_ret].
  destruct e; [by apply quiet_out|apply quiet_undefined].
Qed.

Lemma quiet_throwOnGitError error e message : quiet (W:=W) (throwOnGitError error e message).
Proof.
  unfold throwOnGitError. destruct (error <? 0)%Z; [|apply quiet_ret].
  apply quiet_bind; [apply quiet_logOnGitError|]. intros _. apply quiet_throw.
Qed.

Lemma quiet_checked {T} (r : ret T) message : quiet (W:=W) (checked r message).
Proof.
  unfold checked. apply quiet_bind; [apply quiet_throwOnGitError|].
  intros _. destruct r; [apply quiet_ret|apply quiet_throw].
Qed.

Lemma quiet_print_lines lines : quiet (W:=W) (print_lines lines).
Proof.
  induction lines as [|l lines IH]; simpl; [apply quiet_ret|].
  apply quiet_bind; [by apply quiet_out|]. by intros _.
Qed.

Lemma quiet_dumpDiff repo commit0 commit1 : quiet (W:=W) (dumpDiff repo commit0 commit1).
Proof.
  unfold dumpDiff.
  repeat first
    [ apply quiet_query | apply quiet_checked | apply quiet_print_lines
    | apply quiet_out; reflexivity
    | apply quiet_scope_exit
    | apply quiet_bind; [|intros ?] ].
Qed.

(** What a call followed by its check amounts to. *)
Lemma checked_Success {T} (v : T) message (w : W) :
  checked (Success v) message w = (Normal v, w, []).
Proof. done. Qed.

Lemma checked_Failure {T} code e message (w : W) :
  checked (Failure code e : ret T) message w = failed message code e w [].
Proof. by destruct e. Qed.

Lemma failed_recorded {A} message code e (w : W) cleanup :
  failed (A:=A) message code (Some e) w cleanup
  = (Throw TooBad, w, LogError message (Z.neg code) (klass e) (detail e) :: cleanup).
Proof. done. Qed.

Lemma failed_unrecorded {A} message code (w : W) cleanup :
  failed (A:=A) message code None w cleanup = (Undefined, w, []).
Proof. done. Qed.

(** One turn of the loop. *)
Lemma history_loop_step fuel repo commit (w : W) :
  history_loop (S fuel) repo commit w =
    let line := LogCommit (git_commit_id commit) (git_commit_parentcount commit) in
    if bool_decide (git_commit_parentcount commit = 0) then
      (Normal (commit, None), w, [line])
    else
      match git_commit_lookup repo (git_commit_parent_id commit 0) w with
      | Failure code (Some e) =>
          (Normal (commit, Some TooBad), w,
           [line; LogError "Parent commit lookup failed." (Z.neg code) (klass e) (detail e)])
      | Failure code None => (Undefined, w, [line])
      | Success parentCommit =>
          match dumpDiff repo parentCommit commit w with
          | (Normal _, w1, t1) =>
              let '(r, w2, t2) := history_loop fuel repo parentCommit w1 in
              (r, w2, line :: t1 ++ Free (HCommit commit) :: t2)
          | (Throw e, w1, t1) =>
              (Normal (commit, Some e), w1, line :: t1 ++ [Free (HCommit parentCommit)])
          | (OutOfFuel, w1, t1) => (OutOfFuel, w1, line :: t1)
          | (Undefined, w1, t1) => (Undefined, w1, line :: t1)
          end
      end.
Proof.
  cbn [history_loop]. unfold mbind at 1, M_bind at 1. cbn [out].
  case_bool_decide; [done|].
  unfold mbind at 1, M_bind at 1. cbn [query].
  destruct (git_commit_lookup repo (git_commit_parent_id commit 0) w) as [p|code e].
  - unfold mbind at 1, M_bind at 1, attempt at 1. rewrite checked_Success.
    unfold mbind at 1, M_bind at 1, attempt at 1.
    destruct (dumpDiff repo p commit w) as [[[u|e| |] w1] t1]; [| |done|done].
    + unfold mbind at 1, M_bind at 1. cbn [out].
      destruct (history_loop fuel repo p w1) as [[r w2] t2]. simpl.
      by rewrite ?app_nil_r.
    + simpl. by rewrite ?app_nil_r.
  - unfold mbind at 1, M_bind at 1, attempt at 1. rewrite checked_Failure. by destruct e.
Qed.

End Quiet.

(** ** The program: what a run prints and frees *)

Lemma omap_lines {B} (f : event → option B) (lines : list string) :
  (∀ s, f (LogLine s) = None) → omap f (LogLine <$> lines) = [].
Proof. intros Hf. induction lines as [|l lines IH]; [done|]. simpl. by rewrite Hf. Qed.

Lemma patch_lines_lines (lines : list string) : patch_lines (LogLine <$> lines) = lines.
Proof. induction lines as [|l lines IH]; [done|]. unfold patch_lines. simpl. f_equal. exact IH. Qed.

Lemma omap_cons {B} (f : event → option B) e t :
  omap f (e :: t) = match f e with Some y => y :: omap f t | None => omap f t end.
Proof. done. Qed.

Ltac observe :=
  unfold frees, commit_frees, diff_frees, object_frees, error_lines, done_lines,
    created_lines, visited, patch_lines, index_frees;
  rewrite ?omap_app, ?omap_lines by done; simpl.

Section Runs.
Context {W : Type} `{LibGit2 W}.

Lemma print_lines_run lines (w : W) :
  print_lines lines w = (Normal tt, w, LogLine <$> lines).
Proof.
  induction lines as [|l lines IH]; [done|].
  cbn [print_lines foldr]. unfold mbind, M_bind. cbn [out].
  change (foldr _ _ lines) with (print_lines (W:=W) lines). by rewrite IH.
Qed.

Lemma dumpDiff_unfold repo commit0 commit1 (w : W) :
  dumpDiff repo commit0 commit1 w =
    match git_commit_tree commit0 w with
    | Failure code e => failed "Could not create commit0 tree." code e w []
    | Success tree0 =>
    match git_commit_tree commit1 w with
    | Failure code e => failed "Could not create commit1 tree." code e w [Free (HTree tree0)]
    | Success tree1 =>
    match git_diff_tree_to_tree repo tree0 tree1 w with
    | Failure code e =>
        failed "Could not create diff." code e w [Free (HTree tree1); Free (HTree tree0)]
    | Success diff =>
    match (git_diff_print diff w).2 with
    | Failure code (Some e) =>
        (Throw TooBad, w,
         (LogLine <$> (git_diff_print diff w).1) ++
         [LogError "Could not print diff." (Z.neg code) (klass e) (detail e);
          Free (HDiff diff); Free (HTree tree1); Free (HTree tree0)])
    | Failure code None => (Undefined, w, LogLine <$> (git_diff_print diff w).1)
    | Success _ =>
        (Normal tt, w,
         (LogLine <$> (git_diff_print diff w).1) ++
         [Free (HDiff diff); Free (HTree tree1); Free (HTree tree0)])
    end end end end.
Proof.
  unfold dumpDiff. unfold mbind at 1, M_bind at 1. cbn [query].
  destruct (git_commit_tree commit0 w) as [tree0|code e];
    unfold mbind at 1, M_bind at 1; [rewrite checked_Success|rewrite checked_Failure; by destruct e].
  unfold scope_exit at 1. unfold mbind at 1, M_bind at 1. cbn [query].
  destruct (git_commit_tree commit1 w) as [tree1|code e];
    unfold mbind at 1, M_bind at 1;
    [rewrite checked_Success|rewrite checked_Failure; by destruct e].
  unfold scope_exit at 1. unfold mbind at 1, M_bind at 1. cbn [query].
  destruct (git_diff_tree_to_tree repo tree0 tree1 w) as [diff|code e];
    unfold mbind at 1, M_bind at 1;
    [rewrite checked_Success|rewrite checked_Failure; by destruct e].
  unfold scope_exit at 1. unfold mbind at 1, M_bind at 1. cbn [query].
  unfold mbind at 1, M_bind at 1. rewrite print_lines_run.
  destruct (git_diff_print diff w) as [lines status]. cbn [fst snd].
  destruct status as [[]|code [e|]]; [rewrite checked_Success|rewrite checked_Failure..];
    cbn [out failed]; simpl; by rewrite ?app_nil_r, <-?(assoc_L (++)).
Qed.


Lemma dumpDiff_observed repo commit0 commit1 (w : W) :
  let run := dumpDiff repo commit0 commit1 w in
  visited run.2 = [] ∧ commit_frees run.2 = [] ∧ object_frees run.2 = [] ∧
  done_lines run.2 = [] ∧ length (diff_frees run.2) ≤ 1 ∧
  match run.1.1 with
  | Normal _ => error_lines run.2 = [] ∧ length (diff_frees run.2) = 1
  | Throw e => e = TooBad ∧ length (error_lines run.2) = 1
  | OutOfFuel => False
  | Undefined => error_lines run.2 = [] ∧ frees run.2 = []
  end.
Proof.
  cbv zeta. rewrite dumpDiff_unfold.
  destruct (git_commit_tree commit0 w) as [tree0|? [?|]]; [|by simpl; auto 10..].
  destruct (git_commit_tree commit1 w) as [tree1|? [?|]]; [|by simpl; auto 10..].
  destruct (git_diff_tree_to_tree repo tree0 tree1 w) as [diff|? [?|]]; [|by simpl; auto 10..].
  destruct (git_diff_print diff w).2 as [|? [?|]]; simpl; observe; auto 10.
Qed.


(** What the loop has printed and freed when it is left. *)
Lemma history_loop_discipline fuel repo commit (w w' : W) last e t :
  history_loop fuel repo commit w = (Normal (last, e), w', t) →
  done_lines t = [] ∧ object_frees t = [] ∧
  match e with
  | None =>
      commit_id <$> (commit_frees t ++ [last]) = visited t ∧
      error_lines t = [] ∧
      length (diff_frees t) + 1 = length (visited t)
  | Some x =>
      x = TooBad ∧ length (error_lines t) = 1 ∧
      visited t ⊆+ commit_id <$> (commit_frees t ++ [last]) ∧
      length (commit_frees t) ≤ length (visited t)
  end.
Proof.
  revert commit w w' last e t. induction fuel as [|fuel IH]; intros commit w w' last e t; [done|].
  rewrite history_loop_step. cbv zeta. case_bool_decide as Hroot.
  { intros [= <- <- <- <-]. by observe. }
  destruct (git_commit_lookup repo (git_commit_parent_id commit 0) w) as [p|code [err|]];
    [| |done].
  2:{ intros [= <- <- <- <-]. observe. repeat split; try done; lia. }
  pose proof (dumpDiff_observed repo p commit w) as Hd. cbv zeta in Hd.
  destruct (dumpDiff repo p commit w) as [[r w1] td]. simpl in Hd.
  destruct Hd as (Hv & Hc & Ho & Hdone & Hdl & Hr).
  destruct r as [[]|x| |]; [| |done|done].
  - destruct (history_loop fuel repo p w1) as [[r2 w2] t2] eqn:Hloop.
    intros [= -> <- <-]. apply IH in Hloop as (Hdone2 & Ho2 & He).
    destruct Hr as [Herr Hdiff].
    unfold visited, commit_frees, diff_frees, object_frees, error_lines, done_lines in *.
    rewrite !omap_cons, !omap_app, !omap_cons. cbv beta iota.
    rewrite Hv, Hc, Ho, Hdone, Herr, Hdone2, Ho2. cbn [app].
    split; [done|]. split; [done|]. destruct e as [x|].
    + destruct He as (-> & Herr2 & Hsub & Hlen).
      split; [done|]. split; [done|]. split; [|simpl; lia].
      simpl. by apply submseteq_skip.
    + destruct He as (Hids & Herr2 & Hlen).
      split; [simpl; by f_equal|]. split; [done|]. rewrite ?length_app. simpl. lia.
  - intros [= <- <- <- <-]. destruct Hr as [-> Herr].
    unfold visited, commit_frees, diff_frees, object_frees, error_lines, done_lines in *.
    rewrite !omap_cons, !omap_app, !omap_cons. cbv beta iota.
    rewrite Hv, Hc, Ho, Hdone. cbn [app omap list_omap]. 
    split; [done|]. split; [done|]. split; [done|]. split; [by rewrite ?app_nil_r|].
    split; [|simpl; lia]. simpl. apply submseteq_cons. reflexivity.
Qed.

End Runs.

(** ** The history walk *)

Section Walk.
Context {W : Type} `{LibGit2 W}.

(** The loop hands exceptions back as values, and it leaves the world as it
    is. *)
Lemma history_loop_outcome fuel repo commit (w : W) :
  ∃ r t, history_loop fuel repo commit w = (r, w, t) ∧
         (r = OutOfFuel ∨ r = Undefined ∨ ∃ last e, r = Normal (last, e)).
Proof.
  revert commit. induction fuel as [|fuel IH]; intros commit.
  { exists OutOfFuel, []. split; [done|by left]. }
  rewrite history_loop_step. cbv zeta. case_bool_decide; [by eauto 8|].
  destruct (git_commit_lookup _ _ _) as [p|code [e|]]; [|by eauto 8..].
  destruct (quiet_dumpDiff repo p commit w) as (r & t & -> & Hr & _).
  destruct r as [u|e| |]; [|by eauto 8|done|by eauto 8].
  destruct (IH p) as (r' & t' & -> & Hr'). eauto 8.
Qed.

(** The loop is over when the first-parent steps from its commit are. *)
Lemma history_loop_terminates repo (w : W) commit :
  sn (first_parent_step repo w) commit →
  ∃ n, ∀ fuel, n ≤ fuel → (history_loop fuel repo commit w).1.1 ≠ OutOfFuel.
Proof.
  induction 1 as [commit _ IH].
  destruct (decide (git_commit_parentcount commit = 0)) as [Hroot|Hparent].
  { exists 1. intros [|fuel] ?; [lia|]. rewrite history_loop_step. cbv zeta.
    by rewrite bool_decide_eq_true_2. }
  destruct (git_commit_lookup repo (git_commit_parent_id commit 0) w) as [p|code e] eqn:Hl.
  - destruct (IH p) as [n Hn]; [by split|]. exists (S n).
    intros [|fuel] ?; [lia|]. rewrite history_loop_step. cbv zeta.
    rewrite bool_decide_eq_false_2, Hl by done.
    destruct (quiet_dumpDiff repo p commit w) as (r & t & -> & Hr & _).
    destruct r as [u|e| |]; [|done..].
    specialize (Hn fuel ltac:(lia)).
    by destruct (history_loop fuel repo p w) as [[r' w'] t'].
  - exists 1. intros [|fuel] ?; [lia|]. rewrite history_loop_step. cbv zeta.
    rewrite bool_decide_eq_false_2, Hl by done. by destruct e.
Qed.

Lemma findAllOnMaster_unfold fuel repo (w : W) :
  findAllOnMaster fuel repo w =
    match git_revparse_single repo "master" w with
    | Failure code e => failed "Revparse failed." code e w []
    | Success obj =>
        match git_commit_lookup repo (git_object_id obj) w with
        | Failure code e =>
            failed "Initial commit lookup failed." code e w [Free (HObject obj)]
        | Success commit =>
            match history_loop fuel repo commit w with
            | (Normal (last, None), w1, t) =>
                (Normal tt, w1, t ++ [LogDone; Free (HCommit last); Free (HObject obj)])
            | (Normal (last, Some e), w1, t) =>
                (Throw e, w1, t ++ [Free (HCommit last); Free (HObject obj)])
            | (Throw e, w1, t) => (Throw e, w1, t ++ [Free (HObject obj)])
            | (OutOfFuel, w1, t) => (OutOfFuel, w1, t)
            | (Undefined, w1, t) => (Undefined, w1, t)
            end
        end
    end.
Proof.
  unfold findAllOnMaster. unfold mbind at 1, M_bind at 1. cbn [query].
  destruct (git_revparse_single repo "master" w) as [obj|code e].
  - unfold mbind at 1, M_bind at 1. rewrite checked_Success.
    unfold scope_exit. unfold mbind at 1, M_bind at 1. cbn [query].
    destruct (git_commit_lookup repo (git_object_id obj) w) as [commit|code e].
    + unfold mbind at 1, M_bind at 1. rewrite checked_Success.
      unfold mbind at 1, M_bind at 1.
      destruct (history_loop fuel repo commit w) as [[[[last [e|]]|e| |] w1] t]; simpl;
        by rewrite <-?(assoc_L (++)).
    + unfold mbind at 1, M_bind at 1. rewrite checked_Failure. by destruct e.
  - unfold mbind at 1, M_bind at 1. rewrite checked_Failure. by destruct e.
Qed.

Lemma findAllOnMaster_read_only fuel repo (w : W) :
  (findAllOnMaster fuel repo w).1.2 = w.
Proof.
  rewrite findAllOnMaster_unfold.
  destruct (git_revparse_single _ _ _) as [obj|? [?|]]; [|done..].
  destruct (git_commit_lookup _ _ _) as [commit|? [?|]]; [|done..].
  destruct (history_loop_outcome fuel repo commit w)
    as (r & t & -> & [->|[->|(last & e & ->)]]); [done..|]. by destruct e.
Qed.

Lemma findAllOnMaster_terminates repo (w : W) :
  (∀ commit, sn (first_parent_step repo w) commit) →
  ∃ n, ∀ fuel, n ≤ fuel → (findAllOnMaster fuel repo w).1.1 ≠ OutOfFuel.
Proof.
  intros Hsn.
  destruct (git_revparse_single repo "master" w) as [obj|code e] eqn:Hrev.
  2:{ exists 0. intros fuel _. rewrite findAllOnMaster_unfold, Hrev. by destruct e. }
  destruct (git_commit_lookup repo (git_object_id obj) w) as [commit|code e] eqn:Hl.
  2:{ exists 0. intros fuel _. rewrite findAllOnMaster_unfold, Hrev, Hl. by destruct e. }
  destruct (history_loop_terminates repo w commit (Hsn commit)) as [n Hn].
  exists n. intros fuel Hfuel. rewrite findAllOnMaster_unfold, Hrev, Hl.
  specialize (Hn fuel Hfuel).
  by destruct (history_loop fuel repo commit w) as [[[[last [e|]]|e| |] w1] t].
Qed.

Lemma open_repo_unfold repoPath (w : W) :
  open_repo repoPath w =
    match git_repository_open repoPath w with
    | (Success repo, w1) =>
        match git_repository_workdir repo with
        | Some dir => (Normal repo, w1, [LogOpened dir])
        | None => (Undefined, w1, [])
        end
    | (Failure code e, w1) => failed "Could not open repository." code e w1 []
    end.
Proof.
  unfold open_repo, mbind, M_bind, call.
  destruct (git_repository_open repoPath w) as [[repo|code e] w1];
    [rewrite checked_Success|rewrite checked_Failure; by destruct e].
  by destruct (git_repository_workdir repo).
Qed.

Lemma init_repo_unfold repoPath (w : W) :
  init_repo repoPath w =
    match git_repository_init repoPath w with
    | (Success repo, w1) =>
        match git_repository_workdir repo with
        | Some dir => (Normal repo, w1, [LogInitialized dir])
        | None => (Undefined, w1, [])
        end
    | (Failure code e, w1) => failed "Could not initialize repository." code e w1 []
    end.
Proof.
  unfold init_repo, mbind, M_bind, call.
  destruct (git_repository_init repoPath w) as [[repo|code e] w1];
    [rewrite checked_Success|rewrite checked_Failure; by destruct e].
  by destruct (git_repository_workdir repo).
Qed.

Lemma library_shutdown_run (w : W) :
  library_shutdown w =
    match git_libgit2_shutdown w with
    | (Success _, w1) => (Normal tt, w1, [])
    | (Failure code (Some e), w1) =>
        (Normal tt, w1, [LogError "Git shutdown failed." (Z.neg code) (klass e) (detail e)])
    | (Failure code None, w1) => (Undefined, w1, [])
    end.
Proof.
  unfold library_shutdown, mbind, M_bind, call.
  by destruct (git_libgit2_shutdown w) as [[[]|code [e|]] w1].
Qed.

Lemma main_session_run fuel (w : W) :
  main_session fuel w =
    match current_path w with
    | None => (Throw FilesystemError, w, [])
    | Some cwd =>
        match create_directories (path_append cwd "../GitToolPlayground") w with
        | None => (Throw FilesystemError, w, [])
        | Some w2 =>
            match git_repository_open (path_append cwd "../GitToolPlayground") w2 with
            | (Failure code e, w3) => failed "Could not open repository." code e w3 []
            | (Success repo, w3) =>
                match git_repository_workdir repo with
                | None => (Undefined, w3, [])
                | Some dir =>
                    match findAllOnMaster fuel repo w3 with
                    | (OutOfFuel, w4, t) => (OutOfFuel, w4, LogOpened dir :: t)
                    | (Undefined, w4, t) => (Undefined, w4, LogOpened dir :: t)
                    | (r, w4, t) =>
                        (r, w4, LogOpened dir :: t ++ [Free (HRepository repo)])
                    end
                end
            end
        end
    end.
Proof.
  unfold main_session. unfold mbind at 1, M_bind at 1, fs_query at 1.
  destruct (current_path w) as [cwd|]; [|done]. cbv zeta.
  unfold mbind at 1, M_bind at 1, fs_call at 1.
  destruct (create_directories _ w) as [w2|]; [|done].
  unfold mbind at 1, M_bind at 1. rewrite open_repo_unfold.
  destruct (git_repository_open _ w2) as [[repo|code e] w3]; [|by destruct e].
  destruct (git_repository_workdir repo) as [dir|]; [|done].
  unfold scope_exit.
  by destruct (findAllOnMaster fuel repo w3) as [[[[]|x| |] w4] t].
Qed.

Lemma main_body_run fuel (w : W) :
  main_body fuel w =
    match git_libgit2_init w with
    | (Failure code e, w1) => failed "Git initialization failed." code e w1 []
    | (Success _, w1) =>
        match main_session fuel w1 with
        | (OutOfFuel, w2, t) => (OutOfFuel, w2, t)
        | (Undefined, w2, t) => (Undefined, w2, t)
        | (r, w2, t) =>
            match library_shutdown w2 with
            | (Normal _, w3, ts) => (r, w3, t ++ ts)
            | (_, w3, ts) => (Undefined, w3, t ++ ts)
            end
        end
    end.
Proof.
  unfold main_body. unfold mbind at 1, M_bind at 1, call at 1.
  destruct (git_libgit2_init w) as [[u|code e] w1]; cbv beta iota;
    unfold mbind at 1, M_bind at 1;
    [rewrite checked_Success|rewrite checked_Failure; by destruct e].
  unfold scope_exit.
  destruct (main_session fuel w1) as [[[[]|x| |] w2] t]; [| |done|done];
    rewrite library_shutdown_run;
    by destruct (git_libgit2_shutdown w2) as [[[]|code [e|]] w3].
Qed.

Lemma main_run fuel (w : W) :
  main fuel w =
    match main_body fuel w with
    | (Normal _, w1, t) => (Normal 0%Z, w1, t)
    | (Throw e, w1, t) => (Normal 0%Z, w1, t ++ [LogException e])
    | (OutOfFuel, w1, t) => (OutOfFuel, w1, t)
    | (Undefined, w1, t) => (Undefined, w1, t)
    end.
Proof.
  change (main fuel) with (try_catch (main_body fuel) (λ e, out (LogException e)) ;; mret 0%Z).
  unfold mbind, M_bind, try_catch.
  destruct (main_body fuel w) as [[[[]|x| |] w1] t]; simpl; by rewrite ?app_nil_r.
Qed.

(** No exception leaves [main]: it returns 0 unless it does not return. *)
Lemma main_outcome fuel (w : W) :
  (main fuel w).1.1 = Normal 0%Z ∨ (main fuel w).1.1 = OutOfFuel ∨
  (main fuel w).1.1 = Undefined.
Proof.
  rewrite main_run. destruct (main_body fuel w) as [[[[]|x| |] w1] t]; auto.
Qed.

(** [main] is still going when the fuel is used up only if the walk is. *)
Lemma main_out_of_fuel fuel (w : W) :
  (main fuel w).1.1 = OutOfFuel →
  ∃ repo w', walk_entry w = Some (repo, w') ∧ (findAllOnMaster fuel repo w').1.1 = OutOfFuel.
Proof.
  rewrite main_run, main_body_run. unfold walk_entry.
  destruct (git_libgit2_init w) as [[u|code [e|]] w1]; [|done..].
  rewrite main_session_run.
  destruct (current_path w1) as [cwd|];
    [|by destruct (library_shutdown w1) as [[[[]|?| |] ?] ?]].
  destruct (create_directories _ w1) as [w2|];
    [|by destruct (library_shutdown w1) as [[[[]|?| |] ?] ?]].
  destruct (git_repository_open _ w2) as [[repo|code [e|]] w3]; [| |done].
  2:{ simpl. by destruct (library_shutdown w3) as [[[[]|?| |] ?] ?]. }
  destruct (git_repository_workdir repo) as [dir|]; [|done].
  destruct (findAllOnMaster fuel repo w3) as [[[[]|x| |] w4] t] eqn:Hwalk; [| | |done].
  - by destruct (library_shutdown w4) as [[[[]|?| |] ?] ?].
  - by destruct (library_shutdown w4) as [[[[]|?| |] ?] ?].
  - intros _. exists repo, w3. by rewrite Hwalk.
Qed.

(** With an error record for every failure and a working directory, nothing
    undefined happens. *)
Lemma dumpDiff_defined repo commit0 commit1 (w : W) :
  walk_errors_recorded repo w → defined (dumpDiff repo commit0 commit1) w.
Proof.
  intros (_ & _ & Htree & Hdiff & Hprint). unfold defined. rewrite dumpDiff_unfold.
  destruct (git_commit_tree commit0 w) as [tree0|code [e|]] eqn:H0;
    [|done|by destruct (Htree commit0 code)].
  destruct (git_commit_tree commit1 w) as [tree1|code [e|]] eqn:H1;
    [|done|by destruct (Htree commit1 code)].
  destruct (git_diff_tree_to_tree repo tree0 tree1 w) as [diff|code [e|]] eqn:H2;
    [|done|by destruct (Hdiff tree0 tree1 code)].
  destruct (git_diff_print diff w).2 as [|code [e|]] eqn:H3;
    [done|done|by destruct (Hprint diff code)].
Qed.

Lemma history_loop_defined fuel repo commit (w : W) :
  walk_errors_recorded repo w → (history_loop fuel repo commit w).1.1 ≠ Undefined.
Proof.
  intros Hrec. revert commit. induction fuel as [|fuel IH]; intros commit; [done|].
  rewrite history_loop_step. cbv zeta. case_bool_decide; [done|].
  destruct (git_commit_lookup repo (git_commit_parent_id commit 0) w)
    as [p|code [e|]] eqn:Hl; [|done|exfalso; eapply (proj1 (proj2 Hrec)); exact Hl].
  pose proof (dumpDiff_defined repo p commit w Hrec) as Hd. unfold defined in Hd.
  destruct (quiet_dumpDiff repo p commit w) as (r & t & Heq & _ & _).
  rewrite Heq in Hd |- *. destruct r as [u|e| |]; [|done..].
  specialize (IH p). by destruct (history_loop fuel repo p w) as [[r' w'] t'].
Qed.

Lemma findAllOnMaster_defined fuel repo (w : W) :
  walk_errors_recorded repo w → defined (findAllOnMaster fuel repo) w.
Proof.
  intros Hrec. unfold defined. rewrite findAllOnMaster_unfold.
  destruct (git_revparse_single repo "master" w) as [obj|code [e|]] eqn:Hrev;
    [|done|by destruct (proj1 Hrec code)].
  destruct (git_commit_lookup repo (git_object_id obj) w) as [commit|code [e|]] eqn:Hl;
    [|done|exfalso; eapply (proj1 (proj2 Hrec)); exact Hl].
  pose proof (history_loop_defined fuel repo commit w Hrec) as Hloop.
  by destruct (history_loop fuel repo commit w) as [[[[last [e|]]|e| |] w1] t].
Qed.

Lemma library_shutdown_defined (w : W) :
  recorded (git_libgit2_shutdown w).1 →
  (library_shutdown w).1.1 = Normal tt ∧ length (library_shutdown w).2 ≤ 1.
Proof.
  intros Hrec. rewrite library_shutdown_run.
  destruct (git_libgit2_shutdown w) as [[[]|code [e|]] w1]; simpl in *;
    [split; (done || lia)..|by destruct (Hrec code)].
Qed.

Lemma main_defined fuel (w : W) : main_errors_recorded w → defined (main fuel) w.
Proof.
  intros (Hinit & Hshut & Hopen & Hrepo). unfold defined.
  rewrite main_run, main_body_run.
  destruct (git_libgit2_init w) as [[u|code [e|]] w1]; [|done|by destruct (Hinit code)].
  assert (∀ w', ∃ w3 ts, library_shutdown w' = (Normal tt, w3, ts)) as Hguard.
  { intros w'. pose proof (library_shutdown_defined w' (Hshut w')) as [Hs _].
    destruct (library_shutdown w') as [[r w3] ts]. simpl in Hs. subst r. eauto. }
  rewrite main_session_run.
  destruct (current_path w1) as [cwd|];
    [|by destruct (Hguard w1) as (? & ? & ->)].
  destruct (create_directories _ w1) as [w2|];
    [|by destruct (Hguard w1) as (? & ? & ->)].
  destruct (git_repository_open _ w2) as [[repo|code [e|]] w3] eqn:Ho.
  - destruct (Hrepo _ _ _ _ Ho) as [[dir Hdir] Hwalk]. rewrite Hdir.
    pose proof (findAllOnMaster_defined fuel repo w3 Hwalk) as Hdef. unfold defined in Hdef.
    destruct (findAllOnMaster fuel repo w3) as [[[[]|x| |] w4] t]; [| |done|done];
      by destruct (Hguard w4) as (? & ? & ->).
  - simpl. by destruct (Hguard w3) as (? & ? & ->).
  - specialize (Hopen (path_append cwd "../GitToolPlayground") w2 code).
    rewrite Ho in Hopen. done.
Qed.

(** A walk that goes on from every commit it gets to is never over. *)
Lemma walk_goes_on_forever repo (w : W) (S : git_commit → Prop) obj commit :
  walk_goes_on repo w S →
  git_revparse_single repo "master" w = Success obj →
  git_commit_lookup repo (git_object_id obj) w = Success commit →
  S commit →
  ∀ fuel, (findAllOnMaster fuel repo w).1.1 = OutOfFuel.
Proof.
  intros Hon Hrev Hlookup Hin fuel.
  assert (∀ c, S c → (history_loop fuel repo c w).1.1 = OutOfFuel) as Hloop.
  { induction fuel as [|fuel IH]; intros c Hc; [done|].
    destruct (Hon c Hc) as (p & Hp & [Hcount Hstep] & Hdiff).
    rewrite history_loop_step. cbv zeta.
    rewrite bool_decide_eq_false_2 by done. rewrite Hstep.
    destruct (quiet_dumpDiff repo p c w) as (r & t & Heq & _ & _).
    rewrite Heq in Hdiff |- *. simpl in Hdiff. subst r.
    specialize (IH p Hp). by destruct (history_loop fuel repo p w) as [[r w2] t2]; simpl in *; subst. }
  rewrite findAllOnMaster_unfold, Hrev, Hlookup.
  specialize (Hloop commit Hin).
  by destruct (history_loop fuel repo commit w) as [[r w2] t2]; simpl in *; subst.
Qed.

(** And then [main] is not either. *)
Lemma main_walk_forever (w : W) repo w3 :
  walk_entry w = Some (repo, w3) →
  (∀ fuel, (findAllOnMaster fuel repo w3).1.1 = OutOfFuel) →
  ∀ fuel, (main fuel w).1.1 = OutOfFuel.
Proof.
  intros Hentry Hwalk fuel. unfold walk_entry in Hentry.
  rewrite main_run, main_body_run.
  destruct (git_libgit2_init w) as [[u|code e] w1]; [|done].
  rewrite main_session_run.
  destruct (current_path w1) as [cwd|]; [|done].
  destruct (create_directories _ w1) as [w2|]; [|done].
  destruct (git_repository_open _ w2) as [[repo'|code e] w3']; [|done].
  destruct (git_repository_workdir repo') as [dir|]; [|done].
  simplify_eq. specialize (Hwalk fuel).
  by destruct (findAllOnMaster fuel repo w3) as [[[[]|x| |] w4] t].
Qed.

End Walk.

(** C9, as the program has it.  No exception leaves [main]: whatever the
    library calls answer, a run that comes to its end has exit code 0,
    failures included.  A run that does not get to the walk is over at once;
    a run that stays within defined behaviour comes to its end with 0 as
    soon as the first-parent steps of the history it walks do. *)
Theorem main_returns_zero {W : Type} `{LibGit2 W} (w : W) :
  (∀ fuel, (main fuel w).1.1 = Normal 0%Z ∨ (main fuel w).1.1 = OutOfFuel ∨
           (main fuel w).1.1 = Undefined) ∧
  (walk_entry w = None →
   ∀ fuel, (main fuel w).1.1 = Normal 0%Z ∨ (main fuel w).1.1 = Undefined) ∧
  ((∀ fuel, defined (main fuel) w) →
   (∀ repo w', walk_entry w = Some (repo, w') →
      ∀ commit, sn (first_parent_step repo w') commit) →
   ∃ n, ∀ fuel, n ≤ fuel → (main fuel w).1.1 = Normal 0%Z).
Proof.
  split_and!.
  - intros fuel. apply main_outcome.
  - intros Hnone fuel. destruct (main_outcome fuel w) as [?|[Hout|?]]; [by left| |by right].
    apply main_out_of_fuel in Hout as (repo & w' & Hentry & _). congruence.
  - intros Hdef Hsn. destruct (walk_entry w) as [[repo w']|] eqn:Hentry.
    + destruct (findAllOnMaster_terminates repo w' (Hsn repo w' eq_refl)) as [n Hn].
      exists n. intros fuel Hfuel.
      destruct (main_outcome fuel w) as [?|[Hout|?]]; [done| |by destruct (Hdef fuel)].
      apply main_out_of_fuel in Hout as (repo' & w'' & Hentry' & Hwalk).
      rewrite Hentry in Hentry'. simplify_eq. by destruct (Hn fuel Hfuel).
    + exists 0. intros fuel _.
      destruct (main_outcome fuel w) as [?|[Hout|?]]; [done| |by destruct (Hdef fuel)].
      apply main_out_of_fuel in Hout as (repo' & w'' & Hentry' & _). congruence.
Qed.

(** ** The walk follows the first-parent chain *)

Section Chain.
Context {W : Type} `{LibGit2 W}.

Lemma tc_parent_of_target (g : gmap git_oid Commit) x y :
  tc (parent_of g) x y → ∃ z, parent_of g z y.
Proof. induction 1; eauto. Qed.

(** In a finite graph without cycles the parent links are well founded. *)
Lemma acyclic_graph_sn (g : gmap git_oid Commit) id :
  acyclic_graph g → sn (parent_of g) id.
Proof.
  intros Hacyc. apply tc_finite_sn; [done|].
  exists (mjoin (parentIds <$> (map_to_list g).*2)).
  intros y (z & c & Hz & Hy)%tc_parent_of_target.
  apply list_elem_of_join. exists (parentIds c). split; [done|].
  apply list_elem_of_fmap. exists c. split; [done|].
  apply list_elem_of_fmap. exists (z, c). split; [done|].
  by apply elem_of_map_to_list.
Qed.

Lemma first_parent_chain_head (g : gmap git_oid Commit) id chain :
  first_parent_chain g id chain → ∃ rest, chain = id :: rest.
Proof. destruct 1; eauto. Qed.

Lemma first_parent_chain_unique (g : gmap git_oid Commit) id chain chain' :
  first_parent_chain g id chain → first_parent_chain g id chain' → chain = chain'.
Proof.
  intros Hc. revert chain'. induction Hc as [id c Hl Hp|id c p ps rest Hl Hp _ IH];
    intros chain' Hc'; destruct Hc' as [id c' Hl' Hp'|id c' p' ps' rest' Hl' Hp' Hc'];
    simplify_eq; [done|congruence|congruence|].
  rewrite Hp in Hp'. simplify_eq. f_equal. by apply IH.
Qed.

Lemma diff_outcome_unique repo (w : W) (g : gmap git_oid Commit) id p r r' :
  diff_outcome repo w g id p r → diff_outcome repo w g id p r' → r = r'.
Proof. intros (c & pc & ? & ? & <-) (c' & pc' & ? & ? & <-). by simplify_eq. Qed.

Lemma diffs_along_head repo (w : W) (g : gmap git_oid Commit) id p l :
  diffs_along repo w g (id :: p :: l) → diff_outcome repo w g id p (Normal tt).
Proof. by intros [? _]. Qed.

Lemma diffs_along_tail repo (w : W) (g : gmap git_oid Commit) id l :
  diffs_along repo w g (id :: l) → diffs_along repo w g l.
Proof. destruct l; [done|]. by intros [_ ?]. Qed.

(** What the loop returns, as the outcome of the walk. *)
Lemma walk_exit_run fuel repo (w : W) obj commit :
  git_revparse_single repo "master" w = Success obj →
  git_commit_lookup repo (git_object_id obj) w = Success commit →
  (findAllOnMaster fuel repo w).1.1 = walk_exit (history_loop fuel repo commit w).1.1 ∧
  visited (findAllOnMaster fuel repo w).2 = visited (history_loop fuel repo commit w).2.
Proof.
  intros Hrev Hl. rewrite findAllOnMaster_unfold, Hrev, Hl.
  destruct (history_loop fuel repo commit w) as [[[[last [e|]]|e| |] w1] t]; simpl;
    by rewrite ?visited_app, ?app_nil_r.
Qed.

Lemma history_loop_chain repo (w : W) (g : gmap git_oid Commit) id :
  serves repo w g → closed_graph g →
  sn (parent_of g) id →
  ∀ c, g !! id = Some c →
  ∃ chain n, first_parent_chain g id chain ∧
    (diffs_along repo w g chain ∨
     ∃ before a b after r, chain = before ++ a :: b :: after ∧
       diffs_along repo w g (before ++ [a]) ∧ diff_outcome repo w g a b r ∧
       r ≠ Normal tt) ∧
    ∀ fuel, n ≤ fuel →
      ∃ res t, history_loop fuel repo (mkCommitHandle id c) w = (res, w, t) ∧
               visited t `prefix_of` chain ∧
               (diffs_along repo w g chain → walk_exit res = Normal tt ∧ visited t = chain) ∧
               (∀ before a b after r,
                  chain = before ++ a :: b :: after →
                  diffs_along repo w g (before ++ [a]) →
                  diff_outcome repo w g a b r → r ≠ Normal tt →
                  walk_exit res = r ∧ visited t = before ++ [a]).
Proof.
  intros Hserve Hclosed. induction 1 as [id _ IH]. intros c Hc.
  destruct (parentIds c) as [|p ps] eqn:Hparents.
  - exists [id], 1. split; [by eapply chain_root|]. split; [by left|].
    intros [|fuel] ?; [lia|]. rewrite history_loop_step. cbv zeta.
    unfold git_commit_parentcount. simpl. rewrite Hparents. simpl.
    eexists _, _. split; [done|]. split; [done|]. split; [done|].
    intros [|? [|? ?]] a b after r Heq; simplify_eq.
  - assert (parent_of g id p) as Hlink.
    { exists c. split; [done|]. rewrite Hparents. by left. }
    destruct (Hclosed id p Hlink) as [pc Hpc].
    destruct (IH p Hlink pc Hpc) as (chain & n & Hchain & Hcases & Hloop).
    destruct (first_parent_chain_head _ _ _ Hchain) as [rest ->].
    destruct (quiet_dumpDiff repo (mkCommitHandle p pc) (mkCommitHandle id c) w)
      as (r0 & t0 & Heq & Hr0 & Hquiet).
    assert (diff_outcome repo w g id p r0) as Hdiff.
    { exists c, pc. by rewrite Heq. }
    exists (id :: p :: rest), (S n). split; [by eapply chain_step|]. split.
    { assert (r0 = Normal tt ∨ r0 ≠ Normal tt) as [->|Hfail]
        by (destruct r0 as [[]| | |]; auto).
      - destruct Hcases as [Hall|(before & a & b & after & r & Hlist & Hpre & Hab & Hr)].
        + left. by split.
        + right. exists (id :: before), a, b, after, r. rewrite Hlist.
          split; [done|]. split; [|done].
          destruct before; simpl in *; simplify_eq; by split.
      - right. by exists [], id, p, rest, r0. }
    intros [|fuel] ?; [lia|]. rewrite history_loop_step. cbv zeta.
    unfold git_commit_parentcount, git_commit_parent_id. simpl. rewrite Hparents. simpl.
    rewrite (Hserve p pc Hpc), Heq.
    assert (∀ before a b after r,
              id :: p :: rest = before ++ a :: b :: after →
              diffs_along repo w g (before ++ [a]) →
              diff_outcome repo w g a b r →
              (before = [] ∧ a = id ∧ b = p ∧ r = r0) ∨
              (∃ before', before = id :: before' ∧ p :: rest = before' ++ a :: b :: after ∧
                          r0 = Normal tt ∧ diffs_along repo w g (before' ++ [a]))) as Hsplit.
    { intros [|x before] a b after r Hlist Hpre Hab; simplify_eq/=.
      - left. split_and!; [done..|]. by eapply diff_outcome_unique.
      - right. exists before. split_and!; [done..| |by eapply diffs_along_tail].
        destruct before; simplify_eq/=; destruct Hpre as [Hhead _];
          by eapply diff_outcome_unique. }
    destruct r0 as [[]|e| |]; [| |done|].
    + destruct (Hloop fuel) as (res & t' & -> & Hprefix & Hall & Hfail); [lia|].
      eexists _, _. split; [done|].
      rewrite visited_commit, visited_app, visited_free, Hquiet. simpl.
      split; [by apply prefix_cons|]. split.
      * intros [_ Hrest]. destruct (Hall Hrest) as [-> ->]. done.
      * intros before a b after r Hlist Hpre Hab Hr.
        destruct (Hsplit _ _ _ _ _ Hlist Hpre Hab)
          as [(_ & _ & _ & ->)|(before' & -> & Hlist' & _ & Hpre')]; [done|].
        destruct (Hfail _ _ _ _ _ Hlist' Hpre' Hab Hr) as [-> ->]. done.
    + eexists _, _. split; [done|].
      rewrite visited_commit, visited_app, Hquiet. simpl.
      split; [apply prefix_cons, prefix_nil|]. split.
      * intros [Hhead _]. by pose proof (diff_outcome_unique _ _ _ _ _ _ _ Hdiff Hhead).
      * intros before a b after r Hlist Hpre Hab Hr.
        by destruct (Hsplit _ _ _ _ _ Hlist Hpre Hab)
          as [(-> & -> & -> & ->)|(before' & _ & _ & ? & _)].
    + eexists _, _. split; [done|].
      rewrite visited_commit, Hquiet. simpl.
      split; [apply prefix_cons, prefix_nil|]. split.
      * intros [Hhead _]. by pose proof (diff_outcome_unique _ _ _ _ _ _ _ Hdiff Hhead).
      * intros before a b after r Hlist Hpre Hab Hr.
        by destruct (Hsplit _ _ _ _ _ Hlist Hpre Hab)
          as [(-> & -> & -> & ->)|(before' & _ & _ & ? & _)].
Qed.

End Chain.

(** C1, as the program has it.  For a finite commit graph without cycles
    that the library serves, and [master] resolving to a commit of it,
    [findAllOnMaster] comes to an end, and the commits it prints are those of
    the first-parent chain from that commit, newest first.  When every diff
    along the chain can be made and printed, it prints the whole chain down
    to the root and then [Done.]; otherwise it stops at the first commit
    whose diff against its first parent fails: it has printed the chain up
    to and including that commit and ends the way that diff does, with
    [Too bad.] after one error line and without [Done.] when the diff
    throws. *)
Theorem findAllOnMaster_first_parent_chain {W : Type} `{LibGit2 W}
    (repo : git_repository) (w : W) (g : gmap git_oid Commit) (obj : git_object) :
  git_revparse_single repo "master" w = Success obj →
  is_Some (g !! git_object_id obj) →
  serves repo w g → closed_graph g → acyclic_graph g →
  ∃ chain n,
    first_parent_chain g (git_object_id obj) chain ∧
    (diffs_along repo w g chain ∨
     ∃ before id p after r, chain = before ++ id :: p :: after ∧
       diffs_along repo w g (before ++ [id]) ∧ diff_outcome repo w g id p r ∧
       r ≠ Normal tt) ∧
    ∀ fuel, n ≤ fuel →
      ∃ r t, findAllOnMaster fuel repo w = (r, w, t) ∧ r ≠ OutOfFuel ∧
             visited t `prefix_of` chain ∧
             (diffs_along repo w g chain →
                r = Normal tt ∧ visited t = chain ∧
                done_lines t = [tt] ∧ error_lines t = []) ∧
             (∀ before id p after r',
                chain = before ++ id :: p :: after →
                diffs_along repo w g (before ++ [id]) →
                diff_outcome repo w g id p r' → r' ≠ Normal tt →
                r = r' ∧ visited t = before ++ [id] ∧
                (∀ e, r' = Throw e →
                      e = TooBad ∧ length (error_lines t) = 1 ∧ done_lines t = [])).
Proof.
  intros Hrev [c Hc] Hserve Hclosed Hacyc.
  destruct (history_loop_chain repo w g (git_object_id obj) Hserve Hclosed
              (acyclic_graph_sn g _ Hacyc) c Hc) as (chain & n & Hchain & Hcases & Hloop).
  exists chain, n. split; [done|]. split; [done|]. intros fuel Hfuel.
  destruct (Hloop fuel Hfuel) as (res & t & Heq & Hprefix & Hall & Hfail).
  pose proof (findAllOnMaster_read_only fuel repo w) as Hw.
  destruct (walk_exit_run fuel repo w obj _ Hrev (Hserve _ _ Hc)) as [Hexit Hvisited].
  rewrite Heq in Hexit, Hvisited. simpl in Hexit, Hvisited.
  pose proof (findAllOnMaster_unfold fuel repo w) as Hrun.
  rewrite Hrev, (Hserve _ _ Hc), Heq in Hrun.
  destruct (findAllOnMaster fuel repo w) as [[r w'] t'] eqn:Hfind. simpl in *. subst w'.
  exists r, t'. split; [done|]. rewrite Hvisited, Hexit. split.
  { destruct Hcases as [Hok|(before & id & p & after & r' & Hlist & Hpre & Hab & Hr')].
    - by destruct (Hall Hok) as [-> _].
    - destruct (Hfail _ _ _ _ _ Hlist Hpre Hab Hr') as [-> _].
      destruct Hab as (? & ? & _ & _ & Hd).
      destruct (quiet_dumpDiff repo (mkCommitHandle p x0) (mkCommitHandle id x) w)
        as (r0 & t0 & Hq & Hr0 & _). rewrite Hq in Hd. simpl in Hd. by subst r0. }
  split; [done|]. split.
  - intros Hok. destruct (Hall Hok) as [Hres ->]. split; [done|]. split; [done|].
    destruct res as [[last [e|]]|e| |]; simplify_eq/=.
    apply history_loop_discipline in Heq as (Hdone & _ & _ & Herr & _).
    unfold done_lines, error_lines in *. rewrite !omap_app, Hdone, Herr. done.
  - intros before id p after r' Hlist Hpre Hab Hr'.
    destruct (Hfail _ _ _ _ _ Hlist Hpre Hab Hr') as [Hres ->]. split; [done|].
    split; [done|]. intros e ->.
    destruct res as [[last [e'|]]|e'| |]; simplify_eq/=.
    + apply history_loop_discipline in Heq as (Hdone & _ & -> & Herr & _).
      unfold done_lines, error_lines in *. rewrite !omap_app, Hdone, length_app, Herr. done.
    + destruct (history_loop_outcome fuel repo (mkCommitHandle (git_object_id obj) c) w)
        as (r0 & t0 & Hq & [->|[->|(? & ? & ->)]]); congruence.
Qed.

(** ** The initial commit *)

Section InitialCommit.
Context {W : Type} `{LibGit2 W}.

(** The exit paths of [create_initial_commit], one per library call. *)
Lemma create_initial_commit_unfold repo (w : W) :
  create_initial_commit repo w =
    match git_signature_default repo w with
    | Failure code e => failed signature_message code e w []
    | Success sig =>
    match git_repository_index repo w with
    | Failure code e =>
        failed "Could not open repository index." code e w [Free (HSignature sig)]
    | Success index =>
    match git_index_write_tree index w with
    | (Failure code e, w1) =>
        failed "Unable to write initial tree from index." code e w1
          [Free (HIndex index); Free (HSignature sig)]
    | (Success tree_id, w1) =>
    match git_tree_lookup repo tree_id w1 with
    | Failure code e =>
        failed "Could not look up initial tree." code e w1
          [Free (HIndex index); Free (HIndex index); Free (HSignature sig)]
    | Success tree =>
    match git_commit_create repo "HEAD" sig sig "Initial commit" tree [] w1 with
    | (Failure code e, w2) =>
        failed "Could not create the initial commit." code e w2
          [Free (HTree tree); Free (HIndex index); Free (HIndex index); Free (HSignature sig)]
    | (Success commit_id, w2) =>
        (Normal commit_id, w2,
         [LogCreated; Free (HTree tree); Free (HIndex index); Free (HIndex index);
          Free (HSignature sig)])
    end end end end end.
Proof.
  unfold create_initial_commit. unfold mbind at 1, M_bind at 1. cbn [query].
  destruct (git_signature_default repo w) as [sig|code e];
    unfold mbind at 1, M_bind at 1; [rewrite checked_Success|rewrite checked_Failure; by destruct e].
  unfold scope_exit at 1. unfold mbind at 1, M_bind at 1. cbn [query].
  destruct (git_repository_index repo w) as [index|code e];
    unfold mbind at 1, M_bind at 1; [rewrite checked_Success|rewrite checked_Failure; by destruct e].
  unfold scope_exit at 1. unfold mbind at 1, M_bind at 1, call at 1.
  destruct (git_index_write_tree index w) as [[tree_id|code e] w1]; cbv beta iota;
    unfold mbind at 1, M_bind at 1; [rewrite checked_Success|rewrite checked_Failure; by destruct e].
  unfold scope_exit at 1. unfold mbind at 1, M_bind at 1. cbn [query].
  destruct (git_tree_lookup repo tree_id w1) as [tree|code e];
    unfold mbind at 1, M_bind at 1; [rewrite checked_Success|rewrite checked_Failure; by destruct e].
  unfold scope_exit at 1. unfold mbind at 1, M_bind at 1, call at 1.
  destruct (git_commit_create repo "HEAD" sig sig "Initial commit" tree [] w1)
    as [[commit_id|code e] w2]; cbv beta iota;
    unfold mbind at 1, M_bind at 1; [rewrite checked_Success|rewrite checked_Failure; by destruct e].
  done.
Qed.

(** Past a successful [git_index_write_tree] two guards free the index. *)
Lemma index_freed_twice repo (w w1 : W) sig index tree_id :
  git_signature_default repo w = Success sig →
  git_repository_index repo w = Success index →
  git_index_write_tree index w = (Success tree_id, w1) →
  defined (create_initial_commit repo) w →
  index_frees (create_initial_commit repo w).2 = [index; index].
Proof.
  unfold defined.
  intros Hsig Hindex Hwrite. rewrite create_initial_commit_unfold, Hsig, Hindex, Hwrite.
  destruct (git_tree_lookup repo tree_id w1) as [tree|? [?|]]; [|done..].
  by destruct (git_commit_create _ _ _ _ _ _ _ _) as [[|? [?|]] ?].
Qed.

(** Before it, one guard does. *)
Lemma index_freed_once repo (w w1 : W) sig index code e :
  git_signature_default repo w = Success sig →
  git_repository_index repo w = Success index →
  git_index_write_tree index w = (Failure code (Some e), w1) →
  index_frees (create_initial_commit repo w).2 = [index].
Proof.
  intros Hsig Hindex Hwrite. by rewrite create_initial_commit_unfold, Hsig, Hindex, Hwrite.
Qed.

(** The exit paths of [create_initial_commit], by the call that fails. *)
Lemma create_initial_commit_paths repo (w : W) :
  let run := create_initial_commit repo w in
  (∀ code e,
     git_signature_default repo w = Failure code (Some e) ↔
     run = (Throw TooBad, w,
            [LogError signature_message (Z.neg code) (klass e) (detail e)])) ∧
  (∀ commit_id w2,
     run.1 = (Normal commit_id, w2) ↔
     ∃ sig index tree_id w1 tree,
       git_signature_default repo w = Success sig ∧
       git_repository_index repo w = Success index ∧
       git_index_write_tree index w = (Success tree_id, w1) ∧
       git_tree_lookup repo tree_id w1 = Success tree ∧
       git_commit_create repo "HEAD" sig sig "Initial commit" tree [] w1
       = (Success commit_id, w2)) ∧
  (∀ sig, git_signature_default repo w = Success sig →
     (∀ code e, git_repository_index repo w = Failure code (Some e) →
        run.1 = (Throw TooBad, w) ∧
        error_lines run.2 = ["Could not open repository index."]) ∧
     (∀ index, git_repository_index repo w = Success index →
        (∀ code e w1, git_index_write_tree index w = (Failure code (Some e), w1) →
           run.1 = (Throw TooBad, w1) ∧
           error_lines run.2 = ["Unable to write initial tree from index."]) ∧
        (∀ tree_id w1, git_index_write_tree index w = (Success tree_id, w1) →
           (∀ code e, git_tree_lookup repo tree_id w1 = Failure code (Some e) →
              run.1 = (Throw TooBad, w1) ∧
              error_lines run.2 = ["Could not look up initial tree."]) ∧
           (∀ tree code e w2,
              git_tree_lookup repo tree_id w1 = Success tree →
              git_commit_create repo "HEAD" sig sig "Initial commit" tree [] w1
              = (Failure code (Some e), w2) →
              run.1 = (Throw TooBad, w2) ∧
              error_lines run.2 = ["Could not create the initial commit."])))) ∧
  match run.1.1 with
  | Normal _ => created_lines run.2 = [tt] ∧ error_lines run.2 = []
  | Throw e => e = TooBad ∧ created_lines run.2 = [] ∧ length (error_lines run.2) = 1
  | OutOfFuel => False
  | Undefined => created_lines run.2 = []
  end.
Proof.
  cbv zeta. rewrite create_initial_commit_unfold. split_and!.
  - intros code e. split; [by intros ->|].
    destruct (git_signature_default repo w) as [sig|code' [e'|]];
      [|by destruct e, e'; intros [= -> -> ->]|done].
    destruct (git_repository_index repo w) as [index|? [?|]]; [|done..].
    destruct (git_index_write_tree index w) as [[tree_id|? [?|]] w1]; [|done..].
    destruct (git_tree_lookup repo tree_id w1) as [tree|? [?|]]; [|done..].
    by destruct (git_commit_create _ _ _ _ _ _ _ _) as [[|? [?|]] ?].
  - intros commit_id w2. split.
    + destruct (git_signature_default repo w) as [sig|? [?|]]; [|done..].
      destruct (git_repository_index repo w) as [index|? [?|]]; [|done..].
      destruct (git_index_write_tree index w) as [[tree_id|? [?|]] w1] eqn:Hw; [|done..].
      destruct (git_tree_lookup repo tree_id w1) as [tree|? [?|]] eqn:Ht; [|done..].
      destruct (git_commit_create _ _ _ _ _ _ _ _) as [[cid|? [?|]] w2'] eqn:Hc; [|done..].
      simpl. intros [= -> ->]. by exists sig, index, tree_id, w1, tree.
    + by intros (sig & index & tree_id & w1 & tree & -> & -> & -> & -> & ->).
  - intros sig ->. split; [by intros code e ->|].
    intros index ->. split; [by intros code e w1 ->|].
    intros tree_id w1 ->. split; [by intros code e ->|].
    by intros tree code e w2 -> ->.
  - destruct (git_signature_default repo w) as [sig|? [?|]]; [|done..].
    destruct (git_repository_index repo w) as [index|? [?|]]; [|done..].
    destruct (git_index_write_tree index w) as [[tree_id|? [?|]] w1]; [|done..].
    destruct (git_tree_lookup repo tree_id w1) as [tree|? [?|]]; [|done..].
    by destruct (git_commit_create _ _ _ _ _ _ _ _) as [[|? [?|]] ?].
Qed.

End InitialCommit.

(** ** The program on the engine *)

Lemma find_here l fs id o : ObjectStore.find (mkStore ((id, o) :: l) fs) id = Some o.
Proof. unfold ObjectStore.find. simpl. by rewrite bool_decide_eq_true_2. Qed.

Lemma find_later l fs id id' o :
  id' ≠ id →
  ObjectStore.find (mkStore ((id', o) :: l) fs) id = ObjectStore.find (mkStore l fs) id.
Proof. intros. unfold ObjectStore.find. simpl. by rewrite bool_decide_eq_false_2. Qed.

Lemma contains_find os id o :
  ObjectStore.find os id = Some o → ObjectStore.contains os id = true.
Proof. intros Hf. unfold ObjectStore.contains. rewrite Hf. by apply bool_decide_eq_true_2. Qed.

Lemma contains_find_None os id :
  ObjectStore.find os id = None → ObjectStore.contains os id = false.
Proof.
  intros Hf. unfold ObjectStore.contains. rewrite Hf.
  apply bool_decide_eq_false_2. by intros [? ?].
Qed.

Section Engine.
Context `{Digest, PatchRenderer}.

Lemma initial_commit_created repo name email now :
  let c := initial_commit name email now in
  let tid := id_of_object (Tree []) in
  let cid := id_of_object (CommitObject c) in
  tid ≠ cid →
  create_initial_commit repo (initialized name email now)
  = (Normal cid, after_initial_commit name email now,
     [LogCreated; Free (HTree (mkTree tid [])); Free (HIndex (mkIndex []));
      Free (HIndex (mkIndex [])); Free (HSignature (mkSignature name email now))]).
Proof.
  intros c tid cid Hne. rewrite create_initial_commit_unfold. cbn.
  fold tid. unfold DiffEngine.read_tree, ObjectStore.read. rewrite find_here. cbn.
  unfold Repository.commit, CommitGraph.create. cbn.
  rewrite (contains_find _ _ _ (find_here [] [] tid (Tree []))). cbn.
  unfold ObjectStore.write. cbn. fold tid. fold c. fold cid.
  rewrite (contains_find_None _ cid) by (by rewrite find_later). cbn.
  unfold RefStore.update.
  rewrite (contains_find _ cid (CommitObject c)) by (rewrite find_later by done; apply find_here).
  cbn. fold cid. done.
Qed.

Lemma initial_commit_walk repo name email now fuel :
  let c := initial_commit name email now in
  let tid := id_of_object (Tree []) in
  let cid := id_of_object (CommitObject c) in
  tid ≠ cid →
  findAllOnMaster (S fuel) repo (after_initial_commit name email now)
  = (Normal tt, after_initial_commit name email now,
     [LogCommit cid 0; LogDone; Free (HCommit (mkCommitHandle cid c));
      Free (HObject (mkObject cid (CommitObject c)))]).
Proof.
  intros c tid cid Hne. rewrite findAllOnMaster_unfold. unfold after_initial_commit.
  cbn [git_revparse_single engine_lib]. unfold engine_revparse, RefStore.resolve. cbn [refs].
  change ("refs/heads/" +:+ "master") with "refs/heads/master".
  rewrite lookup_singleton_eq. unfold ObjectStore.read. cbn [store].
  rewrite find_later, find_here by done. cbn [result_map to_ret git_object_id obj_id].
  cbn [git_commit_lookup engine_lib]. unfold CommitGraph.lookup, ObjectStore.read. cbn [store].
  rewrite find_later, find_here by done. cbn [result_map to_ret].
  rewrite history_loop_step. done.
Qed.

(** In a store whose parent links point backwards, the first-parent steps of
    the walk end. *)
Lemma engine_steps_wf repo (w : RepositoryState) :
  causal (store w) → ∀ commit, sn (first_parent_step repo w) commit.
Proof.
  intros [Hnd Hback].
  assert (∀ commit q, first_parent_step repo w commit q →
            ∃ c, q = mkCommitHandle (git_commit_parent_id commit 0) c ∧
                 ObjectStore.find (store w) (git_commit_parent_id commit 0)
                 = Some (CommitObject c) ∧
                 git_commit_parent_id commit 0 ∈ parentIds (commit_data commit)) as Hstep.
  { intros commit q [Hcount Hlookup]. cbn [git_commit_lookup engine_lib] in Hlookup.
    unfold CommitGraph.lookup, ObjectStore.read in Hlookup.
    destruct (ObjectStore.find _ _) as [[| |c]|] eqn:Hf; try done.
    injection Hlookup as <-. exists c. split_and!; [done..|].
    unfold git_commit_parent_id, git_commit_parentcount in *.
    destruct (parentIds (commit_data commit)); [done|by left]. }
  assert (∀ i id c, objects (store w) !! i = Some (id, CommitObject c) →
            sn (first_parent_step repo w) (mkCommitHandle id c)) as Hstored.
  { intros i. induction (lt_wf i) as [i _ IH]. intros id c Hi.
    constructor. intros q Hq. apply Hstep in Hq as (c' & -> & Hf & Hin). simpl in *.
    destruct (Hback i id c _ Hi Hin) as (j & Hlt & Hj).
    apply find_Some_elem, list_elem_of_lookup in Hf as [j' Hj'].
    assert (j' = j) as ->.
    { eapply NoDup_lookup; [exact Hnd| |exact Hj]. by rewrite list_lookup_fmap, Hj'. }
    by eapply IH. }
  intros commit. constructor. intros q Hq. apply Hstep in Hq as (c' & -> & Hf & _).
  apply find_Some_elem, list_elem_of_lookup in Hf as [j Hj]. by eapply Hstored.
Qed.

(** The engine leaves an error record with every failure, and its
    repositories have a working directory. *)
Lemma to_ret_recorded {A} (r : result A) : recorded (to_ret r).
Proof. by destruct r. Qed.

Lemma engine_errors_recorded (w : RepositoryState) : main_errors_recorded w.
Proof.
  split_and!.
  - done.
  - done.
  - intros p w'. cbn. destruct (Repository.open w') as [r w'']. apply to_ret_recorded.
  - intros p w' repo w''. cbn. destruct (Repository.open w') as [[[]|e] w3]; [|done].
    intros [= <- <-]. split; [by eexists|].
    split_and!; intros; cbn; try apply to_ret_recorded; try done.
    unfold engine_diff. destruct (DiffEngine.diffTrees _ _ _ _); [apply to_ret_recorded|done].
Qed.

(** A write that fails stores nothing, and a tree is no commit. *)
Lemma write_failed_objects os o e os' :
  ObjectStore.write os o = (Err e, os') → objects os' = objects os.
Proof.
  intros Hw.
  destruct (write_cases os o) as [[_ Heq]|[_ [(rest & _ & Heq)|[rest Heq]]]];
    rewrite Heq in Hw; by simplify_eq.
Qed.

Lemma write_tree_commits os entries r os' :
  ObjectStore.write os (Tree entries) = (r, os') → commits_of os' = commits_of os.
Proof.
  intros Hw.
  destruct (write_cases os (Tree entries)) as [[_ Heq]|[_ [(rest & _ & Heq)|[rest Heq]]]];
    rewrite Heq in Hw; simplify_eq; [done..|].
  unfold commits_of. simpl. rewrite omap_app. simpl. by rewrite app_nil_r.
Qed.

Lemma build_commits os entries r os' :
  TreeBuilder.build os entries = (r, os') → commits_of os' = commits_of os.
Proof.
  unfold TreeBuilder.build. case_bool_decide; [apply write_tree_commits|].
  by intros [= _ <-].
Qed.

Lemma create_failed_objects os tree parents a c msg e os' :
  CommitGraph.create os tree parents a c msg = (Err e, os') → objects os' = objects os.
Proof.
  destruct (create_cases os tree parents a c msg) as [(_ & _ & ->)|[_ ->]];
    [apply write_failed_objects|by intros [= _ <-]].
Qed.

Lemma commit_failed_objects r refName tree parents a c msg e r' :
  Repository.commit r refName tree parents a c msg = (Err e, r') →
  objects (store r') = objects (store r).
Proof.
  unfold Repository.commit.
  destruct (CommitGraph.create _ _ _ _ _ _) as [[id|e'] os] eqn:Hcreate.
  - destruct (create_cases (store r) tree parents a c msg) as [(_ & _ & Heq)|[_ Heq]];
      rewrite Heq in Hcreate; [|done].
    apply write_Ok_contains in Hcreate as [_ Hin].
    destruct (update_cases os (refs r) refName id) as [[_ ->]|[Hno _]]; [done|congruence].
  - intros [= _ <-]. simpl. by eapply create_failed_objects.
Qed.

(** A failed [create_initial_commit] leaves the refs as they were and has
    stored no commit. *)
Lemma engine_failed_initial_commit repo (w : RepositoryState) e :
  (create_initial_commit repo w).1.1 = Throw e →
  refs (create_initial_commit repo w).1.2 = refs w ∧
  commits_of (store (create_initial_commit repo w).1.2) = commits_of (store w).
Proof.
  rewrite create_initial_commit_unfold. cbn [git_signature_default git_repository_index engine_lib].
  destruct (to_ret (Repository.signature w)) as [sig|? [?|]]; [|done..].
  cbn [git_index_write_tree engine_lib].
  destruct (TreeBuilder.build (store w) _) as [[tid|e1] os] eqn:Hbuild; cbn [to_ret].
  2:{ intros _. simpl. split; [done|]. by eapply build_commits. }
  apply build_commits in Hbuild.
  destruct (git_tree_lookup repo tid (set_store os w)) as [tree|? [?|]]; [|done..].
  cbn [git_commit_create engine_lib].
  destruct (Repository.commit _ _ _ _ _ _ _) as [[cid|e2] w2] eqn:Hc; cbn [to_ret]; [done|].
  intros _. simpl. split; [by apply commit_failed_refs in Hc|].
  apply commit_failed_objects in Hc. unfold commits_of in *. by rewrite Hc.
Qed.

Lemma engine_commit_keeps_refs repo (w : RepositoryState) e :
  (create_initial_commit repo w).1.1 = Throw e →
  refs (create_initial_commit repo w).1.2 = refs w.
Proof. intros Hfail. by apply engine_failed_initial_commit in Hfail as [? _]. Qed.

End Engine.

(** C7, as the program has it.  [create_initial_commit] stops with the
    identity message exactly when [git_signature_default] fails.  It returns
    a commit id exactly when that call, the opening of the index, the writing
    of its tree, the lookup of that tree and the creation of a commit without
    parents on it, through [HEAD], all succeed, and then it prints its success
    line.  A failure of any of these calls that has left an error record is
    reported with the message of that call and thrown as [Too bad.]; the
    calls after it are not made: the run ends in the world the failing call
    has left.  On the engine, a run that fails has stored no commit and has
    left every ref as it was. *)
Theorem create_initial_commit_outcome :
  (∀ (W : Type) (lib : LibGit2 W) (repo : git_repository) (w : W),

     let run := create_initial_commit repo w in
     (∀ code e,
        git_signature_default repo w = Failure code (Some e) ↔
        run = (Throw TooBad, w,
               [LogError signature_message (Z.neg code) (klass e) (detail e)])) ∧
     (∀ commit_id w2,
        run.1 = (Normal commit_id, w2) ↔
        ∃ sig index tree_id w1 tree,
          git_signature_default repo w = Success sig ∧
          git_repository_index repo w = Success index ∧
          git_index_write_tree index w = (Success tree_id, w1) ∧
          git_tree_lookup repo tree_id w1 = Success tree ∧
          git_commit_create repo "HEAD" sig sig "Initial commit" tree [] w1
          = (Success commit_id, w2)) ∧
     (∀ sig, git_signature_default repo w = Success sig →
        (∀ code e, git_repository_index repo w = Failure code (Some e) →
           run.1 = (Throw TooBad, w) ∧
           error_lines run.2 = ["Could not open repository index."]) ∧
        (∀ index, git_repository_index repo w = Success index →
           (∀ code e w1, git_index_write_tree index w = (Failure code (Some e), w1) →
              run.1 = (Throw TooBad, w1) ∧
              error_lines run.2 = ["Unable to write initial tree from index."]) ∧
           (∀ tree_id w1, git_index_write_tree index w = (Success tree_id, w1) →
              (∀ code e, git_tree_lookup repo tree_id w1 = Failure code (Some e) →
                 run.1 = (Throw TooBad, w1) ∧
                 error_lines run.2 = ["Could not look up initial tree."]) ∧
              (∀ tree code e w2,
                 git_tree_lookup repo tree_id w1 = Success tree →
                 git_commit_create repo "HEAD" sig sig "Initial commit" tree [] w1
                 = (Failure code (Some e), w2) →
                 run.1 = (Throw TooBad, w2) ∧
                 error_lines run.2 = ["Could not create the initial commit."])))) ∧
     match run.1.1 with
     | Normal _ => created_lines run.2 = [tt] ∧ error_lines run.2 = []
     | Throw e => e = TooBad ∧ created_lines run.2 = [] ∧ length (error_lines run.2) = 1
     | OutOfFuel => False
     | Undefined => created_lines run.2 = []
     end) ∧
  (∀ (digest : Digest) (renderer : PatchRenderer) (repo : git_repository)
     (w : RepositoryState) e,
     (create_initial_commit repo w).1.1 = Throw e →
     refs (create_initial_commit repo w).1.2 = refs w ∧
     commits_of (store (create_initial_commit repo w).1.2) = commits_of (store w)).
Proof.
  split.
  - intros W lib repo w. apply create_initial_commit_paths.
  - intros digest renderer repo w e. apply engine_failed_initial_commit.
Qed.

(** C6.  A commit creation or a ref update that fails leaves the ref mapping
    as it was, also when the program's [create_initial_commit] is what fails;
    an update to an id that is not in the object store fails with
    [DanglingReferenceError]. *)
Theorem failed_update_keeps_refs `{Digest} :
  (∀ (renderer : PatchRenderer) repo (w : RepositoryState) e,
     (create_initial_commit repo w).1.1 = Throw e →
     refs (create_initial_commit repo w).1.2 = refs w) ∧
  (∀ r refName e r',
     Repository.createInitialCommit r refName = (Err e, r') → refs r' = refs r) ∧
  (∀ r refName tree parents a c msg e r',
     Repository.commit r refName tree parents a c msg = (Err e, r') → refs r' = refs r) ∧
  (∀ os m name id e m',
     RefStore.update os m name id = (Err e, m') → m' = m) ∧
  (∀ os m name id,
     ObjectStore.contains os id = false →
     RefStore.update os m name id = (Err DanglingReferenceError, m) ∧
     (RefStore.update os m name id).2 !! name = m !! name).
Proof.
  split_and!.
  - intros renderer repo w e. apply engine_commit_keeps_refs.
  - intros r refName e r'. unfold Repository.createInitialCommit.
    destruct (Repository.usable r); [|by intros [= _ <-]].
    destruct (Repository.signature r) as [sig|e']; [|by intros [= _ <-]].
    destruct (TreeBuilder.build (store r) []) as [[tree|e'] os]; [|by intros [= _ <-]].
    intros Hc. by apply commit_failed_refs in Hc.
  - intros r refName tree parents a c msg e r'. apply commit_failed_refs.
  - intros os m name id e m' Hu.
    destruct (update_cases os m name id) as [[_ Heq]|[_ Heq]]; rewrite Heq in Hu; by simplify_eq.
  - intros os m name id Hno.
    destruct (update_cases os m name id) as [[Hyes _]|[_ ->]]; [congruence|done].
Qed.

(** C2.  A commit without parents is printed and ends the loop: nothing is
    diffed for it.  In a fresh repository, after the initial commit, the walk
    from [master] prints that one commit, no diff line, and frees only the
    commit and the object it resolved. *)
Theorem root_commit_has_no_patch :
  (∀ (W : Type) (lib : LibGit2 W) repo (w : W) commit fuel,
     git_commit_parentcount commit = 0 →
     history_loop (S fuel) repo commit w
     = (Normal (commit, None), w, [LogCommit (git_commit_id commit) 0])) ∧
  (∀ (digest : Digest) (renderer : PatchRenderer) repo name email now fuel,
     let c := initial_commit name email now in
     let cid := id_of_object (CommitObject c) in
     id_of_object (Tree []) ≠ cid →
     ∃ w t,
       (create_initial_commit repo (initialized name email now)).1 = (Normal cid, w) ∧
       findAllOnMaster (S fuel) repo w = (Normal tt, w, t) ∧
       t = [LogCommit cid 0; LogDone; Free (HCommit (mkCommitHandle cid c));
            Free (HObject (mkObject cid (CommitObject c)))] ∧
       visited t = [cid] ∧ patch_lines t = []).
Proof.
  split.
  - intros W lib repo w commit fuel Hroot. rewrite history_loop_step. cbv zeta.
    by rewrite Hroot.
  - intros digest renderer repo name email now fuel c cid Hne.
    eexists _, _. rewrite initial_commit_created by done.
    split; [done|]. split; [by apply initial_commit_walk|]. done.
Qed.

Lemma root_commit_has_no_patch_witness :
  ∃ w t,
    (@create_initial_commit _ (@engine_lib fnv_digest names_only) example_repo
       (initialized "author" "author@example.org" 0)).1
    = (Normal (example_id (CommitObject (@initial_commit fnv_digest "author" "author@example.org" 0))), w) ∧
    @findAllOnMaster _ (@engine_lib fnv_digest names_only) 1 example_repo w = (Normal tt, w, t) ∧
    visited t = [example_id (CommitObject (@initial_commit fnv_digest "author" "author@example.org" 0))] ∧
    patch_lines t = [].
Proof.
  destruct (proj2 root_commit_has_no_patch fnv_digest names_only example_repo
              "author" "author@example.org" 0%Z 0)
    as (w & t & Hc & Hw & _ & Hv & Hp).
  - vm_compute. discriminate.
  - exists w, t. split_and!; assumption.
Defined.

(** C10, at a fresh repository: the guards of lines 90 and 96 both free the
    index, so it is freed twice on the way out. *)
Theorem index_freed_twice_in_fresh_repository :
  index_frees
    (@create_initial_commit _ (@engine_lib fnv_digest names_only) example_repo
       (initialized "author" "author@example.org" 0)).2
  = [mkIndex []; mkIndex []].
Proof. vm_compute. reflexivity. Qed.

(** C7, as stated, fails when the store cannot write: the author identity is
    there, yet no tree and no commit are written and no ref is updated. *)
Lemma create_initial_commit_storage_failure :
  let lib := @engine_lib fnv_digest names_only in
  let w := mkRepo Initialized true (mkStore [] [true]) ∅ "refs/heads/master" []
                  (Some ("author", "author@example.org")) 0 in
  let run := @create_initial_commit _ lib example_repo w in
  @git_signature_default _ lib example_repo w = Success example_author ∧
  run.1.1 = Throw TooBad ∧
  run.2 = [LogError "Unable to write initial tree from index." (-1) 2 "";
           Free (HIndex (mkIndex [])); Free (HSignature example_author)] ∧
  objects (store run.1.2) = [] ∧ refs run.1.2 = ∅.
Proof. vm_compute. repeat split. Qed.

Lemma create_initial_commit_outcome_witness :
  (@create_initial_commit _ (@engine_lib fnv_digest names_only) example_repo
     (initialized "author" "author@example.org" 0)).1
  = (Normal (example_id (CommitObject (@initial_commit fnv_digest "author" "author@example.org" 0))),
     @after_initial_commit fnv_digest "author" "author@example.org" 0) ∧
  (let w := mkRepo Initialized true (mkStore [] [true]) ∅ "refs/heads/master" []
                   (Some ("author", "author@example.org")) 0 in
   let run := @create_initial_commit _ (@engine_lib fnv_digest names_only) example_repo w in
   run.1.1 = Throw TooBad ∧
   error_lines run.2 = ["Unable to write initial tree from index."] ∧
   refs run.1.2 = refs w ∧ commits_of (store run.1.2) = commits_of (store w)).
Proof.
  destruct create_initial_commit_outcome as [Hpaths Hengine]. split.
  - apply (proj2 (proj1 (proj2 (Hpaths _ (@engine_lib fnv_digest names_only)
                  example_repo (initialized "author" "author@example.org" 0))) _ _)).
    exists example_author, (mkIndex []), (example_id (Tree [])),
      (mkRepo Initialized true (mkStore [(example_id (Tree []), Tree [])] []) ∅
              "refs/heads/master" [] (Some ("author", "author@example.org")) 0),
      (mkTree (example_id (Tree [])) []).
    split_and!; vm_compute; reflexivity.
  - intros w run.
    destruct (Hpaths _ (@engine_lib fnv_digest names_only) example_repo w)
      as (_ & _ & Hsteps & _).
    destruct (Hsteps example_author eq_refl) as [_ Hindex].
    destruct (Hindex (mkIndex []) eq_refl) as [Hwrite _].
    destruct (Hwrite 1%positive (mkError 2 "")
                (mkRepo Initialized true (mkStore [] []) ∅ "refs/heads/master" []
                        (Some ("author", "author@example.org")) 0) eq_refl)
      as [Hrun Herr].
    destruct (Hengine fnv_digest names_only example_repo w TooBad) as [Hrefs Hcommits].
    + exact (f_equal fst Hrun).
    + split; [exact (f_equal fst Hrun)|]. split; [exact Herr|]. split; assumption.
Defined.

(** ** The example history *)

Lemma example_graph_lookup id c :
  example_graph !! id = Some c → (id = id_B ∧ c = commit_B) ∨ (id = id_A ∧ c = commit_A).
Proof.
  unfold example_graph. intros [[<- <-]|[_ Hl]]%lookup_insert_Some; [by left|].
  apply lookup_singleton_Some in Hl as [<- <-]. by right.
Qed.

Lemma example_graph_link a b : parent_of example_graph a b → a = id_B ∧ b = id_A.
Proof.
  intros (c & [[-> ->]|[-> ->]]%example_graph_lookup & Hb).
  - change (parentIds commit_B) with [id_A] in Hb.
    by apply list_elem_of_singleton in Hb as ->.
  - change (parentIds commit_A) with (@nil git_oid) in Hb. by apply elem_of_nil in Hb.
Qed.

Lemma example_graph_acyclic : acyclic_graph example_graph.
Proof.
  assert (∀ a b, tc (parent_of example_graph) a b → a = id_B ∧ b = id_A) as Htc.
  { induction 1 as [a b Hab|a b c Hab _ IH]; [by apply example_graph_link|].
    apply example_graph_link in Hab as [-> ->]. destruct IH as [Heq _].
    vm_compute in Heq. discriminate. }
  intros x [-> Heq]%Htc. vm_compute in Heq. discriminate.
Qed.

Lemma causal_append_commit l fs id c :
  causal (mkStore l fs) → id ∉ l.*1 → Forall (λ p, p ∈ l.*1) (parentIds c) →
  causal (mkStore (l ++ [(id, CommitObject c)]) fs).
Proof.
  intros Hc Hfresh Hparents. eapply causal_append; [exact Hc|done|].
  intros c' p [= <-] Hp. rewrite Forall_forall in Hparents. auto.
Qed.

Lemma causal_append_blob l fs id payload :
  causal (mkStore l fs) → id ∉ l.*1 → causal (mkStore (l ++ [(id, Blob payload)]) fs).
Proof. intros Hc Hfresh. eapply causal_append; [exact Hc|done|]. by intros c' p. Qed.

Lemma causal_append_tree l fs id entries :
  causal (mkStore l fs) → id ∉ l.*1 → causal (mkStore (l ++ [(id, Tree entries)]) fs).
Proof. intros Hc Hfresh. eapply causal_append; [exact Hc|done|]. by intros c' p. Qed.

Lemma example_store_causal : causal example_store.
Proof.
  apply (causal_append_commit
           [(example_id blob_x, blob_x); (example_id tree_x, tree_x);
            (id_A, CommitObject commit_A);
            (example_id blob_y, blob_y); (example_id tree_y, tree_y)] [] id_B commit_B);
    [|compute_done..].
  apply (causal_append_tree
           [(example_id blob_x, blob_x); (example_id tree_x, tree_x);
            (id_A, CommitObject commit_A); (example_id blob_y, blob_y)] []);
    [|compute_done].
  apply (causal_append_blob
           [(example_id blob_x, blob_x); (example_id tree_x, tree_x);
            (id_A, CommitObject commit_A)] []);
    [|compute_done].
  apply (causal_append_commit
           [(example_id blob_x, blob_x); (example_id tree_x, tree_x)] [] id_A commit_A);
    [|compute_done..].
  apply (causal_append_tree [(example_id blob_x, blob_x)] []); [|compute_done].
  apply (causal_append_blob [] []); [|compute_done].
  apply causal_empty.
Qed.

Lemma engine_walk_entry `{Digest, PatchRenderer} (w : RepositoryState) :
  walk_entry w =
    if present w
    then Some (example_repo, set_lifecycle Opened w)
    else None.
Proof. unfold walk_entry. cbn. unfold Repository.open. by destruct (present w). Qed.

Lemma example_graph_closed : closed_graph example_graph.
Proof. intros id p [-> ->]%example_graph_link. exists commit_A. vm_compute. reflexivity. Qed.

Lemma example_chain : first_parent_chain example_graph id_B [id_B; id_A].
Proof.
  apply (chain_step example_graph id_B commit_B id_A [] [id_A]);
    [vm_compute; reflexivity|reflexivity|].
  apply (chain_root example_graph id_A commit_A); [vm_compute; reflexivity|reflexivity].
Qed.

Lemma findAllOnMaster_first_parent_chain_witness :
  (∃ n, ∀ fuel, n ≤ fuel →
     ∃ t, @findAllOnMaster _ (@engine_lib fnv_digest names_only) fuel example_repo
            example_history
          = (Normal tt, example_history, t) ∧
          visited t = [id_B; id_A] ∧ done_lines t = [tt]) ∧
  (∃ n, ∀ fuel, n ≤ fuel →
     ∃ t, @findAllOnMaster _ (@engine_lib fnv_digest names_only) fuel example_repo
            incomplete_history
          = (Throw TooBad, incomplete_history, t) ∧
          visited t = [id_B] ∧ length (error_lines t) = 1 ∧ done_lines t = []).
Proof.
  split.
  - destruct (@findAllOnMaster_first_parent_chain _ (@engine_lib fnv_digest names_only)
             example_repo example_history example_graph
             (mkObject id_B (CommitObject commit_B))) as (chain & n & Hchain & _ & Hwalk).
    + vm_compute. reflexivity.
    + exists commit_B. vm_compute. reflexivity.
    + intros id c [[-> ->]|[-> ->]]%example_graph_lookup; vm_compute; reflexivity.
    + apply example_graph_closed.
    + apply example_graph_acyclic.
    + assert (chain = [id_B; id_A]) as ->
        by exact (first_parent_chain_unique _ _ _ _ Hchain example_chain).
      exists n. intros fuel Hfuel.
      destruct (Hwalk fuel Hfuel) as (r & t & Heq & _ & _ & Hall & _).
      destruct Hall as (-> & Hvisited & Hdone & _).
      * split; [|exact I]. exists commit_B, commit_A.
        split; [vm_compute; reflexivity|]. split; vm_compute; reflexivity.
      * exists t. split; [exact Heq|]. split; [exact Hvisited|exact Hdone].
  - destruct (@findAllOnMaster_first_parent_chain _ (@engine_lib fnv_digest names_only)
             example_repo incomplete_history example_graph
             (mkObject id_B (CommitObject commit_B))) as (chain & n & Hchain & _ & Hwalk).
    + vm_compute. reflexivity.
    + exists commit_B. vm_compute. reflexivity.
    + intros id c [[-> ->]|[-> ->]]%example_graph_lookup; vm_compute; reflexivity.
    + apply example_graph_closed.
    + apply example_graph_acyclic.
    + assert (chain = [id_B; id_A]) as ->
        by exact (first_parent_chain_unique _ _ _ _ Hchain example_chain).
      exists n. intros fuel Hfuel.
      destruct (Hwalk fuel Hfuel) as (r & t & Heq & _ & _ & _ & Hfail).
      destruct (Hfail [] id_B id_A [] (Throw TooBad)) as (-> & Hvisited & Hreport).
      * reflexivity.
      * exact I.
      * exists commit_B, commit_A.
        split; [vm_compute; reflexivity|]. split; vm_compute; reflexivity.
      * discriminate.
      * destruct (Hreport TooBad eq_refl) as (_ & Herr & Hdone).
        exists t. split; [exact Heq|]. split; [exact Hvisited|]. split; [exact Herr|exact Hdone].
Defined.

(** C1, as stated, fails when a diff cannot be made: [B] and [A] form an
    acyclic graph that the library serves and [master] resolves to [B], but
    the tree of [B] is missing, so [dumpDiff] throws after [B] is printed and
    [A] is never reached. *)
Lemma findAllOnMaster_stops_at_missing_tree :
  let lib := @engine_lib fnv_digest names_only in
  @git_revparse_single _ lib example_repo "master" incomplete_history
  = Success (mkObject id_B (CommitObject commit_B)) ∧
  @serves _ lib example_repo incomplete_history example_graph ∧
  closed_graph example_graph ∧ acyclic_graph example_graph ∧
  first_parent_chain example_graph id_B [id_B; id_A] ∧
  ∀ fuel,
    (@findAllOnMaster _ lib (S fuel) example_repo incomplete_history).1.1 = Throw TooBad ∧
    visited (@findAllOnMaster _ lib (S fuel) example_repo incomplete_history).2 = [id_B].
Proof.
  intros lib.
  assert (@git_revparse_single _ lib example_repo "master" incomplete_history
          = Success (mkObject id_B (CommitObject commit_B))) as Hrev
    by (vm_compute; reflexivity).
  assert (@serves _ lib example_repo incomplete_history example_graph) as Hserve.
  { intros id c [[-> ->]|[-> ->]]%example_graph_lookup; vm_compute; reflexivity. }
  split_and!; [exact Hrev|exact Hserve| | | |].
  - apply example_graph_closed.
  - apply example_graph_acyclic.
  - apply example_chain.
  - intros fuel. rewrite findAllOnMaster_unfold, Hrev.
    change (git_object_id (mkObject id_B (CommitObject commit_B))) with id_B.
    rewrite (Hserve id_B commit_B) by (vm_compute; reflexivity).
    rewrite history_loop_step. cbv zeta.
    change (git_commit_parentcount (mkCommitHandle id_B commit_B)) with 1.
    change (git_commit_parent_id (mkCommitHandle id_B commit_B) 0) with id_A.
    rewrite bool_decide_eq_false_2 by lia.
    rewrite (Hserve id_A commit_A) by (vm_compute; reflexivity).
    assert (@dumpDiff _ lib example_repo (mkCommitHandle id_A commit_A)
              (mkCommitHandle id_B commit_B) incomplete_history
            = (Throw TooBad, incomplete_history,
               [LogError "Could not create commit1 tree." (-3) 9 "";
                Free (HTree (mkTree (example_id tree_x)
                               [mkEntry "f.txt" ModeFile (example_id blob_x)]))])) as ->
      by (vm_compute; reflexivity).
    split; reflexivity.
Qed.

(** C9, as stated, fails in two ways.  On a history whose commit is its own
    first parent [main] never returns; and for a bare repository, which has
    no working directory, it streams a null pointer and its behaviour is
    undefined. *)
Lemma main_does_not_always_return :
  (∀ fuel, (@main _ (@engine_lib fnv_digest names_only) fuel cyclic_history).1.1
           = OutOfFuel) ∧
  (∀ fuel, (@main _ (@bare_lib fnv_digest names_only) fuel example_history).1.1
           = Undefined).
Proof.
  split.
  - apply (@main_walk_forever _ (@engine_lib fnv_digest names_only) cyclic_history
             example_repo (set_lifecycle Opened cyclic_history)); [reflexivity|].
    apply (@walk_goes_on_forever _ (@engine_lib fnv_digest names_only) example_repo
             (set_lifecycle Opened cyclic_history)
             (λ c, c = mkCommitHandle 7%N commit_loop)
             (mkObject 7%N (CommitObject commit_loop)) (mkCommitHandle 7%N commit_loop)).
    + intros c ->. exists (mkCommitHandle 7%N commit_loop). split; [reflexivity|]. split.
      * split; [discriminate|]. vm_compute. reflexivity.
      * vm_compute. reflexivity.
    + vm_compute. reflexivity.
    + vm_compute. reflexivity.
    + reflexivity.
  - intros fuel. rewrite main_run, main_body_run.
    cbn [git_libgit2_init bare_lib engine_lib]. rewrite main_session_run. reflexivity.
Qed.

Lemma incomplete_store_causal : causal incomplete_store.
Proof.
  apply (causal_append_commit
           [(example_id blob_x, blob_x); (example_id tree_x, tree_x);
            (id_A, CommitObject commit_A); (example_id blob_y, blob_y)] [] id_B commit_B);
    [|compute_done..].
  apply (causal_append_blob
           [(example_id blob_x, blob_x); (example_id tree_x, tree_x);
            (id_A, CommitObject commit_A)] []);
    [|compute_done].
  apply (causal_append_commit
           [(example_id blob_x, blob_x); (example_id tree_x, tree_x)] [] id_A commit_A);
    [|compute_done..].
  apply (causal_append_tree [(example_id blob_x, blob_x)] []); [|compute_done].
  apply (causal_append_blob [] []); [|compute_done].
  apply causal_empty.
Qed.

Lemma main_returns_zero_witness :
  (∃ n, ∀ fuel, n ≤ fuel →
     (@main _ (@engine_lib fnv_digest names_only) fuel example_history).1.1 = Normal 0%Z) ∧
  (∃ n, ∀ fuel, n ≤ fuel →
     (@main _ (@engine_lib fnv_digest names_only) fuel incomplete_history).1.1 = Normal 0%Z) ∧
  (∃ n, ∀ fuel, n ≤ fuel →
     (@main _ (@engine_lib fnv_digest names_only) fuel no_repository).1.1 = Normal 0%Z).
Proof.
  split_and!.
  - apply (proj2 (proj2 (@main_returns_zero _ (@engine_lib fnv_digest names_only)
                           example_history))).
    + intros fuel. apply (@main_defined _ (@engine_lib fnv_digest names_only)).
      apply (@engine_errors_recorded fnv_digest names_only).
    + intros repo w'. rewrite (@engine_walk_entry fnv_digest names_only).
      change (present example_history) with true. cbv iota.
      intros Hentry commit.
      assert (w' = set_lifecycle Opened example_history) as -> by congruence.
      apply (@engine_steps_wf fnv_digest names_only). exact example_store_causal.
  - apply (proj2 (proj2 (@main_returns_zero _ (@engine_lib fnv_digest names_only)
                           incomplete_history))).
    + intros fuel. apply (@main_defined _ (@engine_lib fnv_digest names_only)).
      apply (@engine_errors_recorded fnv_digest names_only).
    + intros repo w'. rewrite (@engine_walk_entry fnv_digest names_only).
      change (present incomplete_history) with true. cbv iota.
      intros Hentry commit.
      assert (w' = set_lifecycle Opened incomplete_history) as -> by congruence.
      apply (@engine_steps_wf fnv_digest names_only). exact incomplete_store_causal.
  - apply (proj2 (proj2 (@main_returns_zero _ (@engine_lib fnv_digest names_only)
                           no_repository))).
    + intros fuel. apply (@main_defined _ (@engine_lib fnv_digest names_only)).
      apply (@engine_errors_recorded fnv_digest names_only).
    + intros repo w'. rewrite (@engine_walk_entry fnv_digest names_only).
      change (present no_repository) with false. cbv iota. discriminate.
Defined.


(** The example store is what the writes of its six objects, in order, leave
    behind. *)
Lemma example_store_reachable : @reachable fnv_digest example_store.
Proof.
  pose (os1 := (@ObjectStore.write fnv_digest ObjectStore.empty blob_x).2).
  pose (os2 := (@TreeBuilder.build fnv_digest os1
                  [mkEntry "f.txt" ModeFile (example_id blob_x)]).2).
  pose (os3 := (@CommitGraph.create fnv_digest os2 (example_id tree_x) []
                  example_author example_author "A").2).
  pose (os4 := (@ObjectStore.write fnv_digest os3 blob_y).2).
  pose (os5 := (@TreeBuilder.build fnv_digest os4
                  [mkEntry "f.txt" ModeFile (example_id blob_y)]).2).
  assert (example_store
          = (@CommitGraph.create fnv_digest os5 (example_id tree_y) [id_A]
               example_author example_author "B").2) as ->
    by (vm_compute; reflexivity).
  apply (@reachable_commit fnv_digest os5).
  apply (@reachable_tree fnv_digest os4).
  apply (@reachable_blob fnv_digest os3 (list_byte_of_string "y")).
  apply (@reachable_commit fnv_digest os2).
  apply (@reachable_tree fnv_digest os1).
  apply (@reachable_blob fnv_digest ObjectStore.empty (list_byte_of_string "x")).
  apply (@reachable_empty fnv_digest).
Qed.

Lemma commit_graph_acyclic_witness :
  CommitGraph.acyclic example_store ∧
  CommitGraph.parent_link example_store id_B id_A ∧
  CommitGraph.acyclic
    (@CommitGraph.create fnv_digest example_store (example_id tree_x) [id_B; id_A]
       example_author example_author "C").2 ∧
  @CommitGraph.create fnv_digest example_store (example_id tree_x) [id_B; 7%N]
    example_author example_author "C"
  = (Err DanglingReferenceError, example_store).
Proof.
  destruct (@commit_graph_acyclic fnv_digest) as (Hreachable & Hcreate & Hdangling & _).
  split; [apply Hreachable, example_store_reachable|].
  split.
  { exists commit_B. split; [vm_compute; reflexivity|].
    change (parentIds commit_B) with [id_A]. apply list_elem_of_here. }
  split; [apply Hcreate, example_store_reachable|].
  apply (Hdangling example_store (example_id tree_x) [id_B; 7%N] example_author
           example_author "C" 7%N).
  - apply list_elem_of_further, list_elem_of_here.
  - vm_compute. reflexivity.
Defined.

Lemma failed_update_keeps_refs_witness :
  RefStore.update ObjectStore.empty {[ "refs/heads/master" := 5%N ]} "refs/heads/master" 7%N
  = (Err DanglingReferenceError, {[ "refs/heads/master" := 5%N ]}).
Proof.
  apply (proj1 (proj2 (proj2 (proj2 (proj2 (@failed_update_keeps_refs fnv_digest))))
                  ObjectStore.empty {[ "refs/heads/master" := 5%N ]} "refs/heads/master" 7%N
                  eq_refl)).
Defined.

(** * Further properties of the program *)

Section ProgramFacts.
Context {W : Type} `{LibGit2 W}.

(** X2.  On every exit path, normal or by exception, [dumpDiff] frees
    exactly the handles it got from the library, each once, in the reverse of
    the order it got them; a run cut short by undefined behaviour has freed
    nothing. *)
Theorem dumpDiff_releases_in_reverse repo commit0 commit1 (w : W) :
  frees (dumpDiff repo commit0 commit1 w).2
  = match (dumpDiff repo commit0 commit1 w).1.1 with
    | Undefined => []
    | _ => reverse (dumpDiff_acquired repo commit0 commit1 w)
    end.
Proof.
  rewrite dumpDiff_unfold. unfold dumpDiff_acquired.
  destruct (git_commit_tree commit0 w) as [tree0|? [?|]]; [|done..].
  destruct (git_commit_tree commit1 w) as [tree1|? [?|]]; [|done..].
  destruct (git_diff_tree_to_tree repo tree0 tree1 w) as [diff|? [?|]]; [|done..].
  destruct (git_diff_print diff w).2 as [|? [?|]]; simpl; by observe.
Qed.

Lemma last_snoc_cons {A} (l : list A) (x y : A) : last (l ++ [x; y]) = Some y.
Proof. change [x; y] with ([x] ++ [y]). by rewrite (assoc_L (++)), last_snoc. Qed.

Lemma findAllOnMaster_reports fuel repo : reports (W:=W) (findAllOnMaster fuel repo).
Proof.
  intros w. rewrite findAllOnMaster_unfold.
  destruct (git_revparse_single repo "master" w) as [obj|? [?|]]; [|done..].
  destruct (git_commit_lookup repo (git_object_id obj) w) as [commit|? [?|]]; [|done..].
  pose proof (history_loop_outcome fuel repo commit w) as (r & t & Heq & Hr).
  rewrite Heq. destruct Hr as [->|[->|(last & x & ->)]]; [done..|].
  apply history_loop_discipline in Heq as (_ & _ & He).
  unfold error_lines in *.
  destruct x as [x|]; cbn [fst snd]; rewrite !omap_app.
  - destruct He as (-> & Herr & _). split; [done|].
    rewrite length_app, Herr. reflexivity.
  - destruct He as (_ & Herr & _). by rewrite Herr.
Qed.

(** X4.  A walk that ends normally has freed every commit it printed, once
    each and in the order printed, and the object [master] resolved to last;
    it has printed no error, [Done.] once, and made one diff per commit that
    has a parent. *)
Theorem findAllOnMaster_releases_on_success fuel repo (w : W) :
  (findAllOnMaster fuel repo w).1.1 = Normal tt →
  let t := (findAllOnMaster fuel repo w).2 in
  commit_id <$> commit_frees t = visited t ∧
  (∃ obj, git_revparse_single repo "master" w = Success obj ∧
          object_frees t = [obj] ∧ last t = Some (Free (HObject obj))) ∧
  error_lines t = [] ∧ done_lines t = [tt] ∧
  length (diff_frees t) + 1 = length (visited t).
Proof.
  cbv zeta. rewrite findAllOnMaster_unfold.
  destruct (git_revparse_single repo "master" w) as [obj|? [?|]]; [|done..].
  destruct (git_commit_lookup repo (git_object_id obj) w) as [commit|? [?|]]; [|done..].
  destruct (history_loop fuel repo commit w) as [[[[last e]|x| |] w1] t] eqn:Hloop; [|done..].
  apply history_loop_discipline in Hloop as (Hdone & Hobj & He).
  destruct e as [x|]; [done|]. destruct He as (Hids & Herr & Hdiff). intros _. simpl.
  unfold visited, commit_frees, diff_frees, object_frees, error_lines, done_lines in *.
  rewrite !omap_app. simpl. rewrite Hdone, Hobj, Herr, app_nil_r. simpl.
  split; [done|]. split; [|by rewrite ?app_nil_r].
  exists obj. split; [done|]. split; [done|].
  change [LogDone; Free (HCommit last); Free (HObject obj)]
    with ([LogDone] ++ [Free (HCommit last); Free (HObject obj)]).
  by rewrite (assoc_L (++)), last_snoc_cons.
Qed.

(** X5.  A walk that fails throws [Too bad.] after exactly one error line
    and without [Done.]; every commit it printed is still freed, with at
    most one more (the parent whose diff failed), and the resolved object is
    freed exactly when there was one. *)
Theorem findAllOnMaster_releases_on_failure fuel repo (w : W) e :
  (findAllOnMaster fuel repo w).1.1 = Throw e →
  let t := (findAllOnMaster fuel repo w).2 in
  e = TooBad ∧ length (error_lines t) = 1 ∧ done_lines t = [] ∧
  visited t ⊆+ commit_id <$> commit_frees t ∧
  length (commit_frees t) ≤ S (length (visited t)) ∧
  object_frees t = match git_revparse_single repo "master" w with
                   | Success obj => [obj]
                   | Failure _ _ => []
                   end.
Proof.
  cbv zeta. rewrite findAllOnMaster_unfold.
  destruct (git_revparse_single repo "master" w) as [obj|? [?|]]; [| |done].
  2:{ simpl. intros [= <-]. repeat split; try done. lia. }
  destruct (git_commit_lookup repo (git_object_id obj) w) as [commit|? [?|]]; [| |done].
  2:{ simpl. intros [= <-]. repeat split; try done. lia. }
  pose proof (history_loop_outcome fuel repo commit w) as (r & t & Heq & Hr).
  rewrite Heq. destruct Hr as [->|[->|(last & x & ->)]]; [done..|].
  apply history_loop_discipline in Heq as (Hdone & Hobj & He).
  destruct x as [x|]; [|done]. destruct He as (-> & Herr & Hsub & Hlen). simpl.
  intros [= <-].
  unfold visited, commit_frees, diff_frees, object_frees, error_lines, done_lines in *.
  rewrite !omap_app. simpl. rewrite Hdone, Hobj, ?app_nil_r. simpl.
  split; [done|]. split; [rewrite ?length_app; simpl; lia|]. split; [done|].
  split; [done|]. split; [|done]. rewrite ?length_app. simpl. lia.
Qed.




(** X1.  Every function that checks library calls reports its failures: it
    throws only [Too bad.], after exactly one error line, and prints no error
    line when it returns normally. *)
Theorem failures_are_reported repo repoPath fuel commit0 commit1 :
  reports (W:=W) (dumpDiff repo commit0 commit1) ∧
  reports (W:=W) (findAllOnMaster fuel repo) ∧
  reports (W:=W) (create_initial_commit repo) ∧
  reports (W:=W) (init_repo repoPath) ∧
  reports (W:=W) (open_repo repoPath).
Proof.
  split_and!; intros w.
  - pose proof (dumpDiff_observed repo commit0 commit1 w) as (_ & _ & _ & _ & _ & Hr).
    destruct (dumpDiff repo commit0 commit1 w).1.1; [by destruct Hr|done..].
  - apply findAllOnMaster_reports.
  - rewrite create_initial_commit_unfold.
    destruct (git_signature_default repo w) as [sig|? [?|]]; [|done..].
    destruct (git_repository_index repo w) as [index|? [?|]]; [|done..].
    destruct (git_index_write_tree index w) as [[tree_id|? [?|]] w1]; [|done..].
    destruct (git_tree_lookup repo tree_id w1) as [tree|? [?|]]; [|done..].
    by destruct (git_commit_create _ _ _ _ _ _ _ _) as [[|? [?|]] ?].
  - rewrite init_repo_unfold.
    destruct (git_repository_init repoPath w) as [[r|? [?|]] ?]; [|done..].
    by destruct (git_repository_workdir r).
  - rewrite open_repo_unfold.
    destruct (git_repository_open repoPath w) as [[r|? [?|]] ?]; [|done..].
    by destruct (git_repository_workdir r).
Qed.

(** X3.  [dumpDiff] returns normally exactly when both trees, the diff and
    its printing succeed; once the diff is there it prints the lines of the
    patch, each once and in order, also when the printing then reports an
    error, and it prints no patch line otherwise. *)
Theorem dumpDiff_prints_the_patch repo commit0 commit1 (w : W) :
  let run := dumpDiff repo commit0 commit1 w in
  (run.1.1 = Normal tt ↔
   ∃ tree0 tree1 diff,
     git_commit_tree commit0 w = Success tree0 ∧
     git_commit_tree commit1 w = Success tree1 ∧
     git_diff_tree_to_tree repo tree0 tree1 w = Success diff ∧
     (git_diff_print diff w).2 = Success tt) ∧
  patch_lines run.2 =
    match git_commit_tree commit0 w with
    | Failure _ _ => []
    | Success tree0 =>
        match git_commit_tree commit1 w with
        | Failure _ _ => []
        | Success tree1 =>
            match git_diff_tree_to_tree repo tree0 tree1 w with
            | Failure _ _ => []
            | Success diff => (git_diff_print diff w).1
            end
        end
    end.
Proof.
  cbv zeta. rewrite dumpDiff_unfold.
  destruct (git_commit_tree commit0 w) as [tree0|? [?|]] eqn:H0;
    [|split; [split; [done|intros (?&?&?&?&_); congruence]|done]..].
  destruct (git_commit_tree commit1 w) as [tree1|? [?|]] eqn:H1;
    [|split; [split; [done|intros (?&?&?&?&?&_); congruence]|done]..].
  destruct (git_diff_tree_to_tree repo tree0 tree1 w) as [diff|? [?|]] eqn:H2;
    [|split; [split; [done|intros (?&?&?&?&?&?&_); congruence]|done]..].
  destruct (git_diff_print diff w).2 as [[]|code [e|]] eqn:Hprint; simpl.
  - split; [split; [intros _; by exists tree0, tree1, diff|done]|].
    unfold patch_lines. rewrite omap_app. simpl. rewrite app_nil_r. apply patch_lines_lines.
  - split.
    + split; [done|]. intros (t0 & t1 & d & ? & ? & ? & Hp). congruence.
    + unfold patch_lines. rewrite omap_app. simpl. rewrite app_nil_r. apply patch_lines_lines.
  - split.
    + split; [done|]. intros (t0 & t1 & d & ? & ? & ? & Hp). congruence.
    + apply patch_lines_lines.
Qed.


Ltac finish :=
  repeat split; intros;
  repeat match goal with
         | H : ∃ _, _ |- _ => destruct H
         | H : _ ∨ _ |- _ => destruct H
         end;
  simplify_eq; try done; try (by eexists); try (simpl; congruence);
  try (by left); try (by right).

(** X8.  On every exit path, normal or by exception,
    [create_initial_commit] frees nothing but what it got from the library
    and leaves none of it behind; the signature and the tree are freed once
    each, the signature, acquired first, last.  A run cut short by undefined
    behaviour has freed nothing. *)
Theorem create_initial_commit_releases repo (w : W) :
  let t := (create_initial_commit repo w).2 in
  let acquired := create_initial_commit_acquired repo w in
  match (create_initial_commit repo w).1.1 with
  | Undefined => frees t = []
  | _ =>
      (∀ h, h ∈ frees t ↔ h ∈ acquired) ∧
      signatures_of (frees t) = signatures_of acquired ∧
      trees_of (frees t) = trees_of acquired ∧
      last (frees t) = acquired !! 0
  end.
Proof.
  cbv zeta. rewrite create_initial_commit_unfold. unfold create_initial_commit_acquired.
  destruct (git_signature_default repo w) as [sig|? [?|]]; [|done..].
  destruct (git_repository_index repo w) as [index|? [?|]];
    [|by split_and!; [intros h; simpl; rewrite ?elem_of_cons, ?elem_of_nil; tauto|..]|done].
  destruct (git_index_write_tree index w) as [[tree_id|? [?|]] w1];
    [|by split_and!; [intros h; simpl; rewrite ?elem_of_cons, ?elem_of_nil; tauto|..]|done].
  destruct (git_tree_lookup repo tree_id w1) as [tree|? [?|]];
    [|by split_and!; [intros h; simpl; rewrite ?elem_of_cons, ?elem_of_nil; tauto|..]|done].
  destruct (git_commit_create _ _ _ _ _ _ _ _) as [[|? [?|]] ?]; [| |done];
    by split_and!; [intros h; simpl; rewrite ?elem_of_cons, ?elem_of_nil; tauto|..].
Qed.

(** X9.  [create_initial_commit] prints its success line exactly when it
    returns a commit id; it prints none exactly when it throws [Too bad.] or
    is cut short by undefined behaviour.  It touches nothing when the
    signature or the index cannot be had, and does not undo the written tree
    when the lookup of that tree fails. *)
Theorem create_initial_commit_effects repo (w : W) :
  let run := create_initial_commit repo w in
  (created_lines run.2 = [tt] ↔ ∃ id, run.1.1 = Normal id) ∧
  (created_lines run.2 = [] ↔ run.1.1 = Throw TooBad ∨ run.1.1 = Undefined) ∧
  ((∃ code e, git_signature_default repo w = Failure code e) ∨
   (∃ code e, git_repository_index repo w = Failure code e) → run.1.2 = w) ∧
  (∀ sig index tree_id w1 code e,
     git_signature_default repo w = Success sig →
     git_repository_index repo w = Success index →
     git_index_write_tree index w = (Success tree_id, w1) →
     git_tree_lookup repo tree_id w1 = Failure code e →
     run.1.2 = w1).
Proof.
  cbv zeta. rewrite create_initial_commit_unfold.
  destruct (git_signature_default repo w) as [sig|? [?|]] eqn:Hsig; [|finish..].
  destruct (git_repository_index repo w) as [index|? [?|]] eqn:Hindex; [|finish..].
  destruct (git_index_write_tree index w) as [[tree_id|? [?|]] w1] eqn:Hwrite; [|finish..].
  destruct (git_tree_lookup repo tree_id w1) as [tree|? [?|]] eqn:Htree; [|finish..].
  destruct (git_commit_create _ _ _ _ _ _ _ _) as [[cid|? [?|]] w2] eqn:Hcreate; finish.
Qed.






(** X6.  What [main] does when it does not get to the walk, as long as the
    failing calls have left an error record: a failed library
    initialisation is reported and the library is not shut down; a
    file-system exception or a repository that cannot be opened is reported
    after the library has been shut down, and no repository handle is freed.
    The exit code is 0 each time.  Without an error record for the failed
    initialisation or opening, or with a repository that has no working
    directory, the behaviour is undefined. *)
Theorem main_setup_failures fuel (w : W) :
  (∀ code e w1,
     git_libgit2_init w = (Failure code (Some e), w1) →
     main fuel w
     = (Normal 0%Z, w1,
        [LogError "Git initialization failed." (Z.neg code) (klass e) (detail e);
         LogException TooBad])) ∧
  (∀ u w1,
     git_libgit2_init w = (Success u, w1) →
     current_path w1 = None ∨
     (∃ cwd, current_path w1 = Some cwd ∧
             create_directories (path_append cwd "../GitToolPlayground") w1 = None) →
     recorded (git_libgit2_shutdown w1).1 →
     main fuel w
     = (Normal 0%Z, (library_shutdown w1).1.2,
        (library_shutdown w1).2 ++ [LogException FilesystemError])) ∧
  (∀ u w1 cwd w2 code e w3,
     git_libgit2_init w = (Success u, w1) →
     current_path w1 = Some cwd →
     create_directories (path_append cwd "../GitToolPlayground") w1 = Some w2 →
     git_repository_open (path_append cwd "../GitToolPlayground") w2
     = (Failure code (Some e), w3) →
     recorded (git_libgit2_shutdown w3).1 →
     main fuel w
     = (Normal 0%Z, (library_shutdown w3).1.2,
        LogError "Could not open repository." (Z.neg code) (klass e) (detail e)
        :: (library_shutdown w3).2 ++ [LogException TooBad])) ∧
  (∀ code w1,
     git_libgit2_init w = (Failure code None, w1) → (main fuel w).1.1 = Undefined) ∧
  (∀ u w1 cwd w2 r w3,
     git_libgit2_init w = (Success u, w1) →
     current_path w1 = Some cwd →
     create_directories (path_append cwd "../GitToolPlayground") w1 = Some w2 →
     git_repository_open (path_append cwd "../GitToolPlayground") w2 = (r, w3) →
     (∃ code, r = Failure code None) ∨
     (∃ repo, r = Success repo ∧ git_repository_workdir repo = None) →
     (main fuel w).1.1 = Undefined).
Proof.
  assert (∀ w', recorded (git_libgit2_shutdown w').1 →
            ∃ w3 ts, library_shutdown w' = (Normal tt, w3, ts)) as Hguard.
  { intros w' Hrec. pose proof (library_shutdown_defined w' Hrec) as [Hs _].
    destruct (library_shutdown w') as [[r w3] ts]. simpl in Hs. subst r. eauto. }
  split_and!.
  - intros code e w1 Hinit. by rewrite main_run, main_body_run, Hinit.
  - intros u w1 Hinit Hfs Hrec. rewrite main_run, main_body_run, Hinit, main_session_run.
    destruct (Hguard w1 Hrec) as (w3 & ts & Hs).
    destruct Hfs as [->|(cwd & -> & ->)]; by rewrite Hs.
  - intros u w1 cwd w2 code e w3 Hinit Hcwd Hdirs Hopen Hrec.
    rewrite main_run, main_body_run, Hinit, main_session_run, Hcwd, Hdirs, Hopen.
    destruct (Hguard w3 Hrec) as (w4 & ts & Hs). simpl. by rewrite Hs.
  - intros code w1 Hinit. by rewrite main_run, main_body_run, Hinit.
  - intros u w1 cwd w2 r w3 Hinit Hcwd Hdirs Hopen Hr.
    rewrite main_run, main_body_run, Hinit, main_session_run, Hcwd, Hdirs, Hopen.
    by destruct Hr as [[code ->]|(repo & -> & ->)].
Qed.

(** X7.  When [main] gets to the walk and the walk comes to an end within
    defined behaviour, the repository is freed after everything the walk did,
    then the library is shut down, then the exception, if any, is reported;
    a shutdown that fails and has left an error record is only logged. *)
Theorem main_cleanup_order fuel (w : W) repo w3 dir :
  walk_entry w = Some (repo, w3) →
  git_repository_workdir repo = Some dir →
  let walk := findAllOnMaster fuel repo w3 in
  walk.1.1 ≠ OutOfFuel → walk.1.1 ≠ Undefined →
  recorded (git_libgit2_shutdown walk.1.2).1 →
  main fuel w
  = (Normal 0%Z, (library_shutdown walk.1.2).1.2,
     LogOpened dir :: walk.2
     ++ [Free (HRepository repo)] ++ (library_shutdown walk.1.2).2
     ++ match walk.1.1 with Throw e => [LogException e] | _ => [] end) ∧
  (library_shutdown walk.1.2).1.1 = Normal tt ∧
  length (library_shutdown walk.1.2).2 ≤ 1.
Proof.
  intros Hentry Hdir walk Hends Hdef Hrec.
  pose proof (library_shutdown_defined _ Hrec) as [Hs Hlen]. split; [|done].
  unfold walk_entry in Hentry. rewrite main_run, main_body_run.
  destruct (git_libgit2_init w) as [[u|] w1]; [|done].
  rewrite main_session_run.
  destruct (current_path w1) as [cwd|]; [|done].
  destruct (create_directories _ w1) as [w2|]; [|done].
  destruct (git_repository_open _ w2) as [[repo'|] w3']; [|done].
  destruct (git_repository_workdir repo') as [dir'|] eqn:Hdir'; [|done].
  simplify_eq. subst walk.
  destruct (findAllOnMaster fuel repo w3) as [[[[]|x| |] w4] t]; simpl in *; [| |done|done];
    destruct (library_shutdown w4) as [[r w5] ts]; simpl in *; subst r.
  - by rewrite app_nil_r, <-!(assoc_L (++)).
  - simpl. by rewrite <-!(assoc_L (++)).
Qed.

(** X10.  The loop has no bound of its own: in a history where every
    commit has a first parent that is served and diffed, [findAllOnMaster]
    never returns. *)
Theorem history_never_ends repo (w : W) (S : git_commit → Prop) obj commit :
  walk_goes_on repo w S →
  git_revparse_single repo "master" w = Success obj →
  git_commit_lookup repo (git_object_id obj) w = Success commit →
  S commit →
  ∀ fuel, (findAllOnMaster fuel repo w).1.1 = OutOfFuel.
Proof. apply walk_goes_on_forever. Qed.

Lemma dumpDiff_lines repo commit0 commit1 (w : W) :
  commit_counts (dumpDiff repo commit0 commit1 w).2 = [] ∧
  exception_lines (dumpDiff repo commit0 commit1 w).2 = [].
Proof.
  rewrite dumpDiff_unfold. unfold commit_counts, exception_lines.
  destruct (git_commit_tree commit0 w) as [tree0|? [?|]]; [|done..].
  destruct (git_commit_tree commit1 w) as [tree1|? [?|]]; [|done..].
  destruct (git_diff_tree_to_tree repo tree0 tree1 w) as [diff|? [?|]]; [|done..].
  destruct (git_diff_print diff w).2 as [|? [?|]]; simpl;
    by rewrite ?omap_app, !omap_lines.
Qed.

Lemma history_loop_lines fuel repo commit (w w' : W) last e t :
  history_loop fuel repo commit w = (Normal (last, e), w', t) →
  match e with
  | None => ∃ l, commit_counts t = l ++ [0] ∧ Forall (λ n, n ≠ 0) l
  | Some _ => Forall (λ n, n ≠ 0) (commit_counts t)
  end.
Proof.
  revert commit w w' last e t. induction fuel as [|fuel IH]; intros commit w w' last e t; [done|].
  rewrite history_loop_step. cbv zeta. case_bool_decide as Hroot.
  { intros [= <- <- <- <-]. exists []. rewrite Hroot. by split. }
  destruct (git_commit_lookup repo (git_commit_parent_id commit 0) w) as [p|code [err|]];
    [| |done].
  { pose proof (dumpDiff_lines repo p commit w) as [Hc _].
    destruct (dumpDiff repo p commit w) as [[r w1] td]. simpl in Hc.
    destruct r as [[]|x| |]; [| |done|done].
    - destruct (history_loop fuel repo p w1) as [[r2 w2] t2] eqn:Hloop.
      intros [= -> <- <-]. apply IH in Hloop as He.
      unfold commit_counts in *.
      rewrite !omap_cons, !omap_app, !omap_cons. cbv beta iota. rewrite Hc. simpl.
      destruct e as [x|].
      + by constructor.
      + destruct He as (l & -> & Hl). exists (git_commit_parentcount commit :: l).
        split; [done|]. by constructor.
    - intros [= <- <- <- <-]. unfold commit_counts in *.
      rewrite !omap_cons, !omap_app. cbv beta iota. rewrite Hc. simpl.
      by repeat constructor. }
  intros [= <- <- <- <-]. unfold commit_counts. simpl. by repeat constructor.
Qed.

Lemma history_loop_no_exception fuel repo commit (w w' : W) r t :
  history_loop fuel repo commit w = (r, w', t) → exception_lines t = [].
Proof.
  revert commit w w' r t. induction fuel as [|fuel IH]; intros commit w w' r t;
    [by intros [= <- <- <-]|].
  rewrite history_loop_step. cbv zeta. case_bool_decide as Hroot; [by intros [= <- <- <-]|].
  destruct (git_commit_lookup repo (git_commit_parent_id commit 0) w) as [p|code [err|]];
    [|by intros [= <- <- <-]..].
  pose proof (dumpDiff_lines repo p commit w) as [_ Hx].
  destruct (dumpDiff repo p commit w) as [[r1 w1] td]. simpl in Hx.
  unfold exception_lines in *.
  destruct r1 as [[]|x| |].
  - destruct (history_loop fuel repo p w1) as [[r2 w2] t2] eqn:Hloop.
    apply IH in Hloop. intros [= <- <- <-].
    rewrite !omap_cons, !omap_app, !omap_cons. cbv beta iota. by rewrite Hx, Hloop.
  - intros [= <- <- <-]. rewrite !omap_cons, !omap_app. cbv beta iota. by rewrite Hx.
  - intros [= <- <- <-]. rewrite !omap_cons. cbv beta iota. by rewrite Hx.
  - intros [= <- <- <-]. rewrite !omap_cons. cbv beta iota. by rewrite Hx.
Qed.

Lemma findAllOnMaster_no_exception fuel repo (w : W) :
  exception_lines (findAllOnMaster fuel repo w).2 = [].
Proof.
  rewrite findAllOnMaster_unfold.
  destruct (git_revparse_single repo "master" w) as [obj|? [?|]]; [|done..].
  destruct (git_commit_lookup repo (git_object_id obj) w) as [commit|? [?|]]; [|done..].
  destruct (history_loop_outcome fuel repo commit w) as (r & t & Heq & Hr).
  pose proof (history_loop_no_exception _ _ _ _ _ _ _ Heq) as Hx. rewrite Heq.
  destruct Hr as [->|[->|(last & e & ->)]]; [done..|].
  unfold exception_lines in *. destruct e; cbn [fst snd]; by rewrite !omap_app, Hx.
Qed.

Lemma library_shutdown_lines (w : W) : exception_lines (library_shutdown w).2 = [].
Proof.
  rewrite library_shutdown_run. by destruct (git_libgit2_shutdown w) as [[[]|? [?|]] ?].
Qed.

(** X11.  The walk ends normally only at a commit without parents: the last
    commit line then says 0 parents and every earlier one at least 1; a walk
    that fails has printed no commit line with 0 parents. *)
Theorem findAllOnMaster_ends_at_root fuel repo (w : W) :
  let run := findAllOnMaster fuel repo w in
  (run.1.1 = Normal tt →
   ∃ l, commit_counts run.2 = l ++ [0] ∧ Forall (λ n, n ≠ 0) l) ∧
  (∀ e, run.1.1 = Throw e → Forall (λ n, n ≠ 0) (commit_counts run.2)).
Proof.
  cbv zeta. rewrite findAllOnMaster_unfold.
  destruct (git_revparse_single repo "master" w) as [obj|? [?|]];
    [|split; [done|intros; unfold commit_counts; simpl; constructor]|done].
  destruct (git_commit_lookup repo (git_object_id obj) w) as [commit|? [?|]];
    [|split; [done|intros; unfold commit_counts; simpl; constructor]|done].
  destruct (history_loop_outcome fuel repo commit w) as (r & t & Heq & Hr).
  rewrite Heq. destruct Hr as [->|[->|(last & e & ->)]]; [by cbn [fst snd]..|].
  apply history_loop_lines in Heq as He.
  unfold commit_counts in *.
  destruct e as [e|]; cbn [fst snd]; rewrite !omap_app.
  - split; [done|]. intros ? _. simpl. by rewrite app_nil_r.
  - split; [|done]. intros _. simpl. by rewrite app_nil_r.
Qed.

(** X12.  A run of [main] that returns has printed the exception line at
    most once, and exactly when something failed: it has printed none if and
    only if the repository was opened and the walk ended normally. *)
Theorem main_reports_failure_once fuel (w : W) :
  (main fuel w).1.1 = Normal 0%Z →
  length (exception_lines (main fuel w).2) ≤ 1 ∧
  (exception_lines (main fuel w).2 = [] ↔
   ∃ repo w3, walk_entry w = Some (repo, w3) ∧
              (findAllOnMaster fuel repo w3).1.1 = Normal tt).
Proof.
  rewrite main_run, main_body_run. unfold walk_entry.
  destruct (git_libgit2_init w) as [[u|code [e|]] w1]; [| |done].
  2:{ intros _. split; [simpl; lia|]. split; [done|by intros (?&?&?&_)]. }
  rewrite main_session_run.
  destruct (current_path w1) as [cwd|].
  2:{ pose proof (library_shutdown_lines w1) as Hs.
      destruct (library_shutdown w1) as [[[[]|?| |] w5] ts]; [|done..].
      intros _. simpl in *. unfold exception_lines in *. rewrite omap_app, Hs. simpl.
      split; [lia|]. split; [done|by intros (?&?&?&_)]. }
  destruct (create_directories _ w1) as [w2|].
  2:{ pose proof (library_shutdown_lines w1) as Hs.
      destruct (library_shutdown w1) as [[[[]|?| |] w5] ts]; [|done..].
      intros _. simpl in *. unfold exception_lines in *. rewrite omap_app, Hs. simpl.
      split; [lia|]. split; [done|by intros (?&?&?&_)]. }
  destruct (git_repository_open _ w2) as [[repo|code [e|]] w3]; [| |done].
  2:{ pose proof (library_shutdown_lines w3) as Hs. cbn [failed].
      destruct (library_shutdown w3) as [[[[]|?| |] w5] ts]; [|done..].
      intros _. simpl in *. unfold exception_lines in *.
      rewrite omap_app, omap_cons, Hs. simpl.
      split; [lia|]. split; [done|by intros (?&?&?&_)]. }
  destruct (git_repository_workdir repo) as [dir|]; [|done].
  pose proof (findAllOnMaster_no_exception fuel repo w3) as Hx.
  destruct (findAllOnMaster fuel repo w3) as [[[[]|x| |] w4] t] eqn:Hrun; [| |done|done];
    pose proof (library_shutdown_lines w4) as Hs;
    (destruct (library_shutdown w4) as [[[[]|?| |] w5] ts]; [|done..]);
    intros _; simpl in *; unfold exception_lines in *;
    rewrite ?omap_app, ?omap_cons, ?omap_app, Hx, Hs; simpl.
  - split; [lia|]. split; [intros _|done]. exists repo, w3. by rewrite Hrun.
  - split; [lia|]. split; [done|]. intros (?&?&?&Hn). simplify_eq. by rewrite Hrun in Hn.
Qed.

(** X13.  With a library that leaves an error record with every failure,
    and a repository that has a working directory, nothing undefined
    happens in [dumpDiff], in [findAllOnMaster] or in [main]. *)
Theorem recorded_errors_keep_defined fuel (w : W) :
  (main_errors_recorded w → defined (main fuel) w) ∧
  (∀ repo, walk_errors_recorded repo w →
     defined (findAllOnMaster fuel repo) w ∧
     ∀ commit0 commit1, defined (dumpDiff repo commit0 commit1) w).
Proof.
  split; [apply main_defined|]. intros repo Hrec.
  split; [by apply findAllOnMaster_defined|]. intros commit0 commit1.
  by apply dumpDiff_defined.
Qed.

End ProgramFacts.

Lemma findAllOnMaster_releases_on_success_witness :
  commit_id <$> commit_frees
    (@findAllOnMaster _ (@engine_lib fnv_digest names_only) 5 example_repo example_history).2
  = [id_B; id_A] ∧
  done_lines
    (@findAllOnMaster _ (@engine_lib fnv_digest names_only) 5 example_repo example_history).2
  = [tt].
Proof.
  destruct (@findAllOnMaster_releases_on_success _ (@engine_lib fnv_digest names_only)
              5 example_repo example_history) as (Hids & _ & _ & Hdone & _).
  - vm_compute. reflexivity.
  - split; [|exact Hdone]. rewrite Hids. vm_compute. reflexivity.
Defined.

Lemma findAllOnMaster_releases_on_failure_witness :
  length (error_lines
    (@findAllOnMaster _ (@engine_lib fnv_digest names_only) 5 example_repo incomplete_history).2)
  = 1 ∧
  length (commit_frees
    (@findAllOnMaster _ (@engine_lib fnv_digest names_only) 5 example_repo incomplete_history).2)
  ≤ S (length (visited
    (@findAllOnMaster _ (@engine_lib fnv_digest names_only) 5 example_repo incomplete_history).2)).
Proof.
  destruct (@findAllOnMaster_releases_on_failure _ (@engine_lib fnv_digest names_only)
              5 example_repo incomplete_history TooBad) as (_ & Herr & _ & _ & Hlen & _).
  - vm_compute. reflexivity.
  - split; [exact Herr|exact Hlen].
Defined.

Lemma main_setup_failures_witness :
  @main _ (@engine_lib fnv_digest names_only) 3 no_repository
  = (Normal 0%Z, no_repository,
     [LogError "Could not open repository." (-3) 6 ""; LogException TooBad]).
Proof.
  rewrite (proj1 (proj2 (proj2 (@main_setup_failures _ (@engine_lib fnv_digest names_only)
                                  3 no_repository)))
             tt no_repository "." no_repository 3%positive (mkError 6 "") no_repository);
    [reflexivity..|intros code; discriminate].
Defined.

Lemma main_cleanup_order_witness :
  (@main _ (@engine_lib fnv_digest names_only) 5 example_history).2
  = LogOpened "./../GitToolPlayground"
    :: (@findAllOnMaster _ (@engine_lib fnv_digest names_only) 5 example_repo
          (set_lifecycle Opened example_history)).2
    ++ [Free (HRepository example_repo)].
Proof.
  destruct (@main_cleanup_order _ (@engine_lib fnv_digest names_only) 5 example_history
              example_repo (set_lifecycle Opened example_history) "./../GitToolPlayground")
    as [Hmain _].
  - reflexivity.
  - reflexivity.
  - vm_compute. discriminate.
  - vm_compute. discriminate.
  - intros code. discriminate.
  - rewrite Hmain. vm_compute. reflexivity.
Defined.

Lemma create_initial_commit_effects_witness :
  created_lines
    (@create_initial_commit _ (@engine_lib fnv_digest names_only) example_repo
       (initialized "author" "author@example.org" 0)).2
  = [tt].
Proof.
  apply (proj2 (proj1 (@create_initial_commit_effects _ (@engine_lib fnv_digest names_only)
                         example_repo (initialized "author" "author@example.org" 0)))).
  eexists. vm_compute. reflexivity.
Defined.

Lemma history_never_ends_witness :
  (@findAllOnMaster _ (@engine_lib fnv_digest names_only) 1000 example_repo cyclic_history).1.1
  = OutOfFuel.
Proof.
  refine (@history_never_ends _ (@engine_lib fnv_digest names_only) example_repo cyclic_history
            (λ c, c = mkCommitHandle 7%N commit_loop)
            (mkObject 7%N (CommitObject commit_loop)) (mkCommitHandle 7%N commit_loop)
            _ _ _ _ 1000).
  - intros c ->. exists (mkCommitHandle 7%N commit_loop). split; [reflexivity|]. split.
    + split; [discriminate|]. vm_compute. reflexivity.
    + vm_compute. reflexivity.
  - vm_compute. reflexivity.
  - vm_compute. reflexivity.
  - reflexivity.
Defined.

Lemma findAllOnMaster_ends_at_root_witness :
  ∃ l, commit_counts
         (@findAllOnMaster _ (@engine_lib fnv_digest names_only) 5 example_repo
            example_history).2
       = l ++ [0] ∧ Forall (λ n, n ≠ 0) l.
Proof.
  apply (proj1 (@findAllOnMaster_ends_at_root _ (@engine_lib fnv_digest names_only)
                  5 example_repo example_history)).
  vm_compute. reflexivity.
Defined.

Lemma main_reports_failure_once_witness :
  exception_lines (@main _ (@engine_lib fnv_digest names_only) 5 example_history).2 = [] ∧
  length (exception_lines (@main _ (@engine_lib fnv_digest names_only) 3 no_repository).2) ≤ 1.
Proof.
  split.
  - destruct (@main_reports_failure_once _ (@engine_lib fnv_digest names_only)
                5 example_history) as [_ Hnone].
    + vm_compute. reflexivity.
    + apply Hnone. exists example_repo, (set_lifecycle Opened example_history).
      split; vm_compute; reflexivity.
  - apply (@main_reports_failure_once _ (@engine_lib fnv_digest names_only) 3 no_repository).
    vm_compute. reflexivity.
Defined.

Lemma recorded_errors_keep_defined_witness :
  defined (@main _ (@engine_lib fnv_digest names_only) 5) incomplete_history.
Proof.
  apply (proj1 (@recorded_errors_keep_defined _ (@engine_lib fnv_digest names_only)
                  5 incomplete_history)).
  apply (@engine_errors_recorded fnv_digest names_only).
Defined.
